(** * Simple image crawler: a shallow embedding of [main.go] and its properties

    The development follows the source file top to bottom:

    - [Regexp]: the fragment of Go's [regexp] that [isImageURL] uses;
    - [Filepath]: [filepath.Base], [filepath.Clean] and [filepath.Join]
      on a Unix target;
    - the data of the program ([ImageURL], the constants, the tokens of the
      HTML tokenizer) and its environment (HTTP client, file system,
      standard output);
    - [isImageURL], [getFilenameFromURL], [downloadImage], [parseHTML];
    - the goroutines of [worker] and [Start] as a transition system whose
      threads are interleaved by a schedule;
    - the properties. *)

From Stdlib Require Import ZArith Ascii String List Lia.
From stdpp Require Import gmap strings list fin_maps.

Local Open Scope Z_scope.

(** ** Strings *)

(** [has_suffix s suf]: [s] ends with [suf]. *)
Definition has_suffix (s suf : string) : Prop := ∃ p : string, s = p +:+ suf.

(** ** The regular expressions of [isImageURL] *)

Module Regexp.

(** Syntax trees of the patterns built from literals, concatenation,
    alternation and the end-of-text anchor [$] (without the [m] flag, [$]
    matches at the end of the text only). *)
Inductive regex : Type :=
| Eps
| Lit (c : ascii)
| Cat (r1 r2 : regex)
| Alt (r1 r2 : regex)
| EndText.

(** The literal string [w]. *)
Fixpoint word (w : string) : regex :=
  match w with
  | EmptyString => Eps
  | String c w' => Cat (Lit c) (word w')
  end.

(** [rmatch r s]: every remainder of [s] left after a match of [r] that
    starts at the first character of [s]. *)
Fixpoint rmatch (r : regex) (s : string) : list string :=
  match r with
  | Eps => [s]
  | Lit c =>
      match s with
      | String c' s' => if Ascii.eqb c c' then [s'] else []
      | EmptyString => []
      end
  | Cat r1 r2 => flat_map (rmatch r2) (rmatch r1 s)
  | Alt r1 r2 => rmatch r1 s ++ rmatch r2 s
  | EndText =>
      match s with
      | EmptyString => [s]
      | String _ _ => []
      end
  end.

Definition matches_here (r : regex) (s : string) : bool :=
  match rmatch r s with
  | [] => false
  | _ :: _ => true
  end.

(** [Regexp.MatchString]: the pattern matches somewhere in [s] (the search
    is not anchored at the start). *)
Fixpoint MatchString (r : regex) (s : string) : bool :=
  matches_here r s ||
  match s with
  | EmptyString => false
  | String _ s' => MatchString r s'
  end.

End Regexp.

(** ** [path/filepath] on Unix *)

Module Filepath.

Definition is_sep (c : ascii) : bool := Ascii.eqb c "/".

(** The loop of [Base] that strips trailing separators. *)
Fixpoint strip_trailing (s : string) : string :=
  match s with
  | EmptyString => EmptyString
  | String c s' =>
      match strip_trailing s' with
      | EmptyString => if is_sep c then EmptyString else String c EmptyString
      | r => String c r
      end
  end.

(** The text after the last separator ([acc] is the element read so far). *)
Fixpoint last_elem (acc s : string) : string :=
  match s with
  | EmptyString => acc
  | String c s' =>
      if is_sep c then last_elem EmptyString s'
      else last_elem (acc +:+ String c EmptyString) s'
  end.

(** [filepath.Base]: the last element of the path. *)
Definition Base (path : string) : string :=
  if String.eqb path EmptyString then "."
  else
    let p := last_elem EmptyString (strip_trailing path) in
    if String.eqb p EmptyString then "/" else p.

(** The elements of a path, cut at the separators. *)
Fixpoint split_sep (acc s : string) : list string :=
  match s with
  | EmptyString => [acc]
  | String c s' =>
      if is_sep c then acc :: split_sep EmptyString s'
      else split_sep (acc +:+ String c EmptyString) s'
  end.

(** The scan of [Clean] over the elements: [out] is the output so far, in
    reverse; empty elements and [.] are dropped, [..] removes the element
    before it, is dropped at the root and is kept at the start of a
    relative path. *)
Fixpoint clean_elems (rooted : bool) (out : list string) (es : list string)
  : list string :=
  match es with
  | [] => out
  | e :: es' =>
      if String.eqb e EmptyString || String.eqb e "." then clean_elems rooted out es'
      else if String.eqb e ".." then
        match out with
        | o :: out' =>
            if String.eqb o ".." then clean_elems rooted (e :: out) es'
            else clean_elems rooted out' es'
        | [] =>
            if rooted then clean_elems rooted out es'
            else clean_elems rooted (e :: out) es'
        end
      else clean_elems rooted (e :: out) es'
  end.

Fixpoint join_sep (es : list string) : string :=
  match es with
  | [] => EmptyString
  | [e] => e
  | e :: es' => e +:+ "/" +:+ join_sep es'
  end.

(** [filepath.Clean]: the shortest path name equivalent to [path] by purely
    lexical processing. *)
Definition Clean (path : string) : string :=
  match path with
  | EmptyString => "."
  | String c _ =>
      let rooted := is_sep c in
      let body := join_sep (rev (clean_elems rooted [] (split_sep EmptyString path))) in
      if rooted then "/" +:+ body
      else if String.eqb body EmptyString then "." else body
  end.

(** [filepath.Join]: leading empty elements are skipped, the rest is joined
    by separators and cleaned; the empty string when every element is
    empty. *)
Fixpoint Join (elems : list string) : string :=
  match elems with
  | [] => EmptyString
  | e :: es => if String.eqb e EmptyString then Join es else Clean (join_sep elems)
  end.

End Filepath.

(** ** Data *)

(** [type ImageURL struct]: an item of work. [Depth] is a Go [int], 64 bits
    wide. *)
Record ImageURL : Type := mkImageURL { URL : string; Depth : Z }.

Global Instance ImageURL_eq_dec : EqDecision ImageURL.
Proof. solve_decision. Defined.

Definition MaxDepth : Z := 3.
Definition MaxWorkers : Z := 10.
Definition DownloadDir : string := "images".
(** The capacity of [urlChan], from [NewCrawler]. *)
Definition urlChanCap : nat := 100.

(** Addition on [int]: the result wraps around at 64 bits. *)
Definition int_wrap (z : Z) : Z := (z + 2 ^ 63) mod 2 ^ 64 - 2 ^ 63.
Definition int_add (a b : Z) : Z := int_wrap (a + b).

(** The new line character. *)
Definition nl : string := String "010" EmptyString.

(** *** Tokens of [golang.org/x/net/html] *)

Inductive TokenType : Type :=
| ErrorToken
| TextToken
| StartTagToken
| EndTagToken
| SelfClosingTagToken
| CommentToken
| DoctypeToken.

Record Attribute : Type := mkAttr { Key : string; Val : string }.

Record Token : Type :=
  mkToken { Type_ : TokenType; Data : string; Attr : list Attribute }.

(** *** The environment *)

(** A Go [error] is kept as its message. *)
Inductive result (A : Type) : Type :=
| Ok (a : A)
| Err (e : string).
Arguments Ok {A} a.
Arguments Err {A} e.

(** An HTTP response: the bytes that can be read from [resp.Body], and the
    error that ends the reading ([None] when it ends with [io.EOF]). *)
Record Response : Type :=
  mkResponse { Body : list Byte.byte; BodyErr : option string }.

(** What the program does not own: the HTML tokenizer, the HTTP client and
    the faults of the file system. The natural number is the count of
    calls made to the environment so far, so that the same call may be
    answered differently at different times.

    - [html_tokens b]: what successive calls of [Next] and [Token] return
      on input [b]; after the last element [Next] returns [ErrorToken];
    - [http_Get t url]: [c.client.Get(url)];
    - [os_MkdirAll t dir], [os_Create t path]: the error, if any;
    - [disk_fault t path]: [Some (n, e)] when writes to the file fail with
      [e] after [n] bytes. *)
Record Env : Type := mkEnv {
  html_tokens : list Byte.byte → list Token;
  http_Get : nat → string → result Response;
  os_MkdirAll : nat → string → option string;
  os_Create : nat → string → option string;
  disk_fault : nat → string → option (nat * string)
}.

(** The world outside the crawler's memory: the clock that counts the calls
    to the environment, the files and directories, the lines printed. *)
Record World : Type := mkWorld {
  now : nat;
  files : gmap string (list Byte.byte);
  dirs : gset string;
  stdout : list string
}.

(** *** A state monad over the world *)

Definition IO (A : Type) : Type := World → A * World.

Global Instance IO_ret : MRet IO := λ A a w, (a, w).
Global Instance IO_bind : MBind IO :=
  λ A B f m w, let '(a, w') := m w in f a w'.

(** One call to the environment: read the clock, then advance it. *)
Definition tick : IO nat :=
  λ w, (now w, mkWorld (S (now w)) (files w) (dirs w) (stdout w)).

Definition Printf (line : string) : IO unit :=
  λ w, (tt, mkWorld (now w) (files w) (dirs w) (stdout w ++ [line])).

Definition set_file (path : string) (b : list Byte.byte) : IO unit :=
  λ w, (tt, mkWorld (now w) (<[path := b]> (files w)) (dirs w) (stdout w)).

Definition add_dir (dir : string) : IO unit :=
  λ w, (tt, mkWorld (now w) (files w) ({[dir]} ∪ dirs w) (stdout w)).

Definition client_Get (env : Env) (url : string) : IO (result Response) :=
  t ← tick; mret (http_Get env t url).

(** [os.MkdirAll]: on success the directory exists. *)
Definition MkdirAll (env : Env) (dir : string) : IO (option string) :=
  t ← tick;
  match os_MkdirAll env t dir with
  | Some e => mret (Some e)
  | None => add_dir dir;; mret None
  end.

(** [os.Create]: on success the file exists and is empty, whatever it
    held before. *)
Definition Create (env : Env) (path : string) : IO (option string) :=
  t ← tick;
  match os_Create env t path with
  | Some e => mret (Some e)
  | None => set_file path [];; mret None
  end.

(** [io.Copy(file, resp.Body)]: the bytes read are written in order; a
    write fault after [n] bytes leaves the first [n] in the file; else
    every byte is written and the error of the reading, if any, is
    returned. *)
Definition Copy (env : Env) (path : string) (resp : Response)
  : IO (option string) :=
  t ← tick;
  match disk_fault env t path with
  | Some (n, e) =>
      if (n <? length (Body resp))%nat
      then set_file path (take n (Body resp));; mret (Some e)
      else set_file path (Body resp);; mret (BodyErr resp)
  | None => set_file path (Body resp);; mret (BodyErr resp)
  end.

(** ** The functions of [main.go] *)

(** The pattern [\.(jpg|jpeg|png|gif|bmp)$] of line 46. *)
Definition imgRegex : Regexp.regex :=
  Regexp.Cat (Regexp.Lit ".")
    (Regexp.Cat
       (Regexp.Alt (Regexp.word "jpg")
          (Regexp.Alt (Regexp.word "jpeg")
             (Regexp.Alt (Regexp.word "png")
                (Regexp.Alt (Regexp.word "gif") (Regexp.word "bmp")))))
       Regexp.EndText).

Definition isImageURL (url : string) : bool :=
  Regexp.MatchString imgRegex url.

Definition getFilenameFromURL (url : string) : string := Filepath.Base url.

(** [downloadImage] returns [None] for [nil]. *)
Definition downloadImage (env : Env) (imgURL : string) : IO (option string) :=
  r ← client_Get env imgURL;
  match r with
  | Err e => mret (Some e)
  | Ok resp =>
      e1 ← MkdirAll env DownloadDir;
      match e1 with
      | Some e => mret (Some e)
      | None =>
          let filename :=
            Filepath.Join [DownloadDir; getFilenameFromURL imgURL] in
          e2 ← Create env filename;
          match e2 with
          | Some e => mret (Some e)
          | None =>
              e3 ← Copy env filename resp;
              match e3 with
              | Some e => mret (Some e)
              | None =>
                  Printf ("Downloaded: " +:+ filename +:+ nl);;
                  mret None
              end
          end
      end
  end.

(** The loop over [token.Attr] of lines 97 to 101. *)
Fixpoint collect_href (attrs : list Attribute) (links : list string)
  : list string :=
  match attrs with
  | [] => links
  | attr :: attrs' =>
      if String.eqb (Key attr) "href"
      then collect_href attrs' (links ++ [Val attr])
      else collect_href attrs' links
  end.

(** The loop over [token.Attr] of lines 103 to 107. *)
Fixpoint collect_src (attrs : list Attribute) (images : list string)
  : list string :=
  match attrs with
  | [] => images
  | attr :: attrs' =>
      if String.eqb (Key attr) "src" && isImageURL (Val attr)
      then collect_src attrs' (images ++ [Val attr])
      else collect_src attrs' images
  end.

(** The loop of lines 88 to 110 over the tokens that [Next] returns. *)
Fixpoint parse_loop (toks : list Token) (links images : list string)
  : list string * list string :=
  match toks with
  | [] => (links, images)
  | token :: toks' =>
      match Type_ token with
      | ErrorToken => (links, images)
      | StartTagToken | SelfClosingTagToken =>
          if String.eqb (Data token) "a"
          then parse_loop toks' (collect_href (Attr token) links) images
          else if String.eqb (Data token) "img"
          then parse_loop toks' links (collect_src (Attr token) images)
          else parse_loop toks' links images
      | _ => parse_loop toks' links images
      end
  end.

Definition parseHTML (env : Env) (body : list Byte.byte) (baseURL : string)
  (depth : Z) : list string * list string :=
  parse_loop (html_tokens env body) [] [].

(** ** The goroutines *)

(** The points of [Start] (lines 153 to 163) at which the main goroutine
    can be. *)
Inductive MainPC : Type :=
| SLoop (i : Z)   (* line 154: the test [i < MaxWorkers] *)
| SAdd (i : Z)    (* line 155: [c.wg.Add(1)] *)
| SGo (i : Z)     (* line 156: [go c.worker()], then [i++] *)
| SSend           (* line 159: the seed is sent *)
| SWait           (* line 161: [c.wg.Wait()] *)
| SClose          (* line 162: [close(c.urlChan)] *)
| SReturned.      (* [Start] has returned *)

(** The points of [worker] (lines 115 to 151) at which a worker can be. *)
Inductive WorkerPC : Type :=
| WRange                      (* line 118: receive from [c.urlChan] *)
| WDepth (it : ImageURL)      (* line 119: the test on [Depth] *)
| WLock (it : ImageURL)       (* line 123: [c.visitedLock.Lock()] *)
| WCheck (it : ImageURL)      (* line 124: the test on [c.visited] *)
| WUnlockSkip (it : ImageURL) (* lines 125, 126: unlock and continue *)
| WSet (it : ImageURL)        (* line 128: [c.visited[...] = true] *)
| WUnlock (it : ImageURL)     (* line 129: [c.visitedLock.Unlock()] *)
| WGet (it : ImageURL)        (* lines 131 to 138: fetch and parse *)
| WDownload (it : ImageURL) (images links : list string)
                              (* lines 141 to 145: the loop on images *)
| WSend (it : ImageURL) (links : list string)
                              (* lines 147 to 149: the loop on links *)
| WDeferred                   (* line 116: the deferred [c.wg.Done()] *)
| WReturned.                  (* [worker] has returned *)

(** The receptions, decisions and calls of the workers that the properties
    talk about, in the order in which they happen. *)
Inductive Event : Type :=
| EvSend (it : ImageURL)               (* lines 148, 159: an item is sent *)
| EvRecv (it : ImageURL)               (* line 118: an item is received *)
| EvClaim (it : ImageURL) (won : bool) (* line 124: the visited check *)
| EvFetchPage (it : ImageURL)          (* line 131: [c.client.Get] *)
| EvDownload (img : string).           (* line 142: [c.downloadImage] *)

Global Instance Event_eq_dec : EqDecision Event.
Proof. solve_decision. Defined.

Inductive Thread : Type :=
| Main
| Worker (i : nat).

(** The [Crawler] (without [client], which is in the environment), the
    goroutines and the world. [visitedLock] holds the index of the worker
    that has locked it; [panicked] is set when the runtime stops the
    program; [trace] records the events and is read by no step. *)
Record State : Type := mkState {
  visited : gmap string bool;
  visitedLock : option nat;
  wg : Z;
  urlChan : list ImageURL;
  closed : bool;
  main_pc : MainPC;
  workers : list WorkerPC;
  world : World;
  panicked : bool;
  trace : list Event
}.

Definition set_visited (v : gmap string bool) (s : State) : State :=
  mkState v (visitedLock s) (wg s) (urlChan s) (closed s) (main_pc s)
    (workers s) (world s) (panicked s) (trace s).
Definition set_lock (l : option nat) (s : State) : State :=
  mkState (visited s) l (wg s) (urlChan s) (closed s) (main_pc s)
    (workers s) (world s) (panicked s) (trace s).
Definition set_wg (n : Z) (s : State) : State :=
  mkState (visited s) (visitedLock s) n (urlChan s) (closed s) (main_pc s)
    (workers s) (world s) (panicked s) (trace s).
Definition set_chan (q : list ImageURL) (s : State) : State :=
  mkState (visited s) (visitedLock s) (wg s) q (closed s) (main_pc s)
    (workers s) (world s) (panicked s) (trace s).
Definition set_closed (b : bool) (s : State) : State :=
  mkState (visited s) (visitedLock s) (wg s) (urlChan s) b (main_pc s)
    (workers s) (world s) (panicked s) (trace s).
Definition set_main (pc : MainPC) (s : State) : State :=
  mkState (visited s) (visitedLock s) (wg s) (urlChan s) (closed s) pc
    (workers s) (world s) (panicked s) (trace s).
Definition set_workers (ws : list WorkerPC) (s : State) : State :=
  mkState (visited s) (visitedLock s) (wg s) (urlChan s) (closed s)
    (main_pc s) ws (world s) (panicked s) (trace s).
Definition set_world (w : World) (s : State) : State :=
  mkState (visited s) (visitedLock s) (wg s) (urlChan s) (closed s)
    (main_pc s) (workers s) w (panicked s) (trace s).
Definition set_panicked (s : State) : State :=
  mkState (visited s) (visitedLock s) (wg s) (urlChan s) (closed s)
    (main_pc s) (workers s) (world s) true (trace s).
Definition emit (e : Event) (s : State) : State :=
  mkState (visited s) (visitedLock s) (wg s) (urlChan s) (closed s)
    (main_pc s) (workers s) (world s) (panicked s) (trace s ++ [e]).

(** Worker [i] moves to [pc]. *)
Definition goto (i : nat) (pc : WorkerPC) (s : State) : State :=
  set_workers (<[i := pc]> (workers s)) s.

(** [c.visited[url]]: a missing key reads as [false]. *)
Definition visited_get (s : State) (url : string) : bool :=
  default false (visited s !! url).

(** A send on [c.urlChan]: it panics on a closed channel, blocks ([None])
    while the buffer is full, and else appends to the buffer. *)
Definition chan_send (it : ImageURL) (s : State) : option State :=
  if closed s then Some (set_panicked s)
  else if (length (urlChan s) <? urlChanCap)%nat
  then Some (emit (EvSend it) (set_chan (urlChan s ++ [it]) s))
  else None.

(** [c.wg.Add(delta)]: a negative counter panics. *)
Definition wg_Add (delta : Z) (s : State) : State :=
  if wg s + delta <? 0 then set_panicked s else set_wg (wg s + delta) s.

(** One step of worker [i], which is at [pc]. *)
Definition worker_step (env : Env) (i : nat) (pc : WorkerPC) (s : State)
  : option State :=
  match pc with
  | WRange =>
      match urlChan s with
      | imgURL :: rest =>
          Some (goto i (WDepth imgURL) (emit (EvRecv imgURL) (set_chan rest s)))
      | [] => if closed s then Some (goto i WDeferred s) else None
      end
  | WDepth imgURL =>
      if Depth imgURL >? MaxDepth then Some (goto i WRange s)
      else Some (goto i (WLock imgURL) s)
  | WLock imgURL =>
      match visitedLock s with
      | None => Some (goto i (WCheck imgURL) (set_lock (Some i) s))
      | Some _ => None
      end
  | WCheck imgURL =>
      if visited_get s (URL imgURL)
      then Some (goto i (WUnlockSkip imgURL) (emit (EvClaim imgURL false) s))
      else Some (goto i (WSet imgURL) (emit (EvClaim imgURL true) s))
  | WUnlockSkip imgURL =>
      match visitedLock s with
      | None => Some (set_panicked s)
      | Some _ => Some (goto i WRange (set_lock None s))
      end
  | WSet imgURL =>
      Some (goto i (WUnlock imgURL)
              (set_visited (<[URL imgURL := true]> (visited s)) s))
  | WUnlock imgURL =>
      match visitedLock s with
      | None => Some (set_panicked s)
      | Some _ => Some (goto i (WGet imgURL) (set_lock None s))
      end
  | WGet imgURL =>
      let '(r, w) := client_Get env (URL imgURL) (world s) in
      let s1 := emit (EvFetchPage imgURL) (set_world w s) in
      match r with
      | Err err =>
          let line :=
            "Error fetching " +:+ URL imgURL +:+ ": " +:+ err +:+ nl in
          Some (goto i WRange (set_world (Printf line w).2 s1))
      | Ok resp =>
          let '(links, images) :=
            parseHTML env (Body resp) (URL imgURL) (Depth imgURL) in
          Some (goto i (WDownload imgURL images links) s1)
      end
  | WDownload imgURL (img :: images) links =>
      let '(r, w) := downloadImage env img (world s) in
      let s1 := emit (EvDownload img) (set_world w s) in
      match r with
      | Some err =>
          let line := "Error downloading " +:+ img +:+ ": " +:+ err +:+ nl in
          Some (goto i (WDownload imgURL images links)
                  (set_world (Printf line w).2 s1))
      | None => Some (goto i (WDownload imgURL images links) s1)
      end
  | WDownload imgURL [] links => Some (goto i (WSend imgURL links) s)
  | WSend imgURL (link :: links) =>
      match chan_send (mkImageURL link (int_add (Depth imgURL) 1)) s with
      | Some s' =>
          if panicked s' then Some s' else Some (goto i (WSend imgURL links) s')
      | None => None
      end
  | WSend imgURL [] => Some (goto i WRange s)
  | WDeferred =>
      let s' := wg_Add (-1) s in
      if panicked s' then Some s' else Some (goto i WReturned s')
  | WReturned => None
  end.

(** One step of [Start startURL]. *)
Definition main_step (startURL : string) (s : State) : option State :=
  match main_pc s with
  | SLoop i =>
      if i <? MaxWorkers then Some (set_main (SAdd i) s)
      else Some (set_main SSend s)
  | SAdd i =>
      let s' := wg_Add 1 s in
      if panicked s' then Some s' else Some (set_main (SGo i) s')
  | SGo i =>
      Some (set_main (SLoop (int_add i 1))
              (set_workers (workers s ++ [WRange]) s))
  | SSend =>
      match chan_send (mkImageURL startURL 1) s with
      | Some s' => if panicked s' then Some s' else Some (set_main SWait s')
      | None => None
      end
  | SWait => if wg s =? 0 then Some (set_main SClose s) else None
  | SClose =>
      if closed s then Some (set_panicked s)
      else Some (set_main SReturned (set_closed true s))
  | SReturned => None
  end.

(** One step of thread [t]; [None] when [t] is blocked, has returned or
    does not exist, and after a panic. *)
Definition step (env : Env) (startURL : string) (t : Thread) (s : State)
  : option State :=
  if panicked s then None
  else
    match t with
    | Main => main_step startURL s
    | Worker i =>
        match workers s !! i with
        | Some pc => worker_step env i pc s
        | None => None
        end
    end.

(** The threads run in the order given by the schedule; a thread that
    cannot move is passed over. *)
Definition exec (env : Env) (startURL : string) (sched : list Thread)
  (s : State) : State :=
  fold_left (λ s t, default s (step env startURL t s)) sched s.

(** [NewCrawler()] in the world [w], with [Start] about to run. *)
Definition NewCrawler (w : World) : State :=
  mkState ∅ None 0 [] false (SLoop 0) [] w false [].

(** The states that [Start startURL] can reach from the world [w]. *)
Definition reachable (env : Env) (startURL : string) (w : World) (s : State)
  : Prop :=
  ∃ sched, s = exec env startURL sched (NewCrawler w).

(** ** The words of the specification *)

(** The suffixes of the image classifier. *)
Definition image_suffixes : list string :=
  [".jpg"; ".jpeg"; ".png"; ".gif"; ".bmp"].

(** A tag-start or self-closing token for the element [name]. *)
Definition is_open_tag (name : string) (token : Token) : bool :=
  match Type_ token with
  | StartTagToken | SelfClosingTagToken => String.eqb (Data token) name
  | _ => false
  end.

(** The tokens ahead of the first [ErrorToken]. *)
Fixpoint before_error (toks : list Token) : list Token :=
  match toks with
  | [] => []
  | token :: toks' =>
      match Type_ token with
      | ErrorToken => []
      | _ => token :: before_error toks'
      end
  end.

(** The values of the attributes named [key], in the order of the tag. *)
Definition attr_values (key : string) (attrs : list Attribute) : list string :=
  flat_map (λ a, if String.eqb (Key a) key then [Val a] else []) attrs.

(** Every [href] of every [<a>], in document order. *)
Definition page_links (toks : list Token) : list string :=
  flat_map
    (λ token,
       if is_open_tag "a" token then attr_values "href" (Attr token) else [])
    (before_error toks).

(** Every [src] of every [<img>] that the classifier accepts, in document
    order. *)
Definition page_images (toks : list Token) : list string :=
  flat_map
    (λ token,
       if is_open_tag "img" token
       then flat_map (λ v, if isImageURL v then [v] else [])
              (attr_values "src" (Attr token))
       else [])
    (before_error toks).

(** [s] has a separator. *)
Fixpoint has_sep (s : string) : bool :=
  match s with
  | EmptyString => false
  | String c s' => Filepath.is_sep c || has_sep s'
  end.

(** The text after the last [/] of the string; the whole string when it
    has none. On a URL, the query and the fragment are part of the
    string. *)
Fixpoint after_last_slash (url : string) : string :=
  match url with
  | EmptyString => EmptyString
  | String c url' =>
      if has_sep url' then after_last_slash url'
      else if Filepath.is_sep c then url' else url
  end.

(** The file of an image: the text after the last [/] of its URL, inside
    the output directory. *)
Definition image_path (url : string) : string :=
  DownloadDir +:+ "/" +:+ after_last_slash url.

(** No write fault hits a copy of [body] at time [t]. *)
Definition copy_ok (env : Env) (t : nat) (path : string)
  (body : list Byte.byte) : Prop :=
  ∀ n e, disk_fault env t path = Some (n, e) → (length body ≤ n)%nat.

(** [pre] is empty or ends with a separator. *)
Definition dir_prefix (pre : string) : Prop :=
  pre = EmptyString ∨ ∃ q, pre = q +:+ "/".

(** The last character exists and is no separator. *)
Fixpoint ends_nonsep (s : string) : bool :=
  match s with
  | EmptyString => false
  | String c EmptyString => negb (Filepath.is_sep c)
  | String _ s' => ends_nonsep s'
  end.

(** ** Invariants of the crawl *)

(** The points of the critical section of [visitedLock]. *)
Definition in_cs (pc : WorkerPC) : bool :=
  match pc with
  | WCheck _ | WUnlockSkip _ | WSet _ | WUnlock _ => true
  | _ => false
  end.

(** The worker has left its loop. *)
Definition exited (pc : WorkerPC) : bool :=
  match pc with
  | WDeferred | WReturned => true
  | _ => false
  end.

(** The item that a worker holds once it has passed the test on the
    depth. *)
Definition admitted (pc : WorkerPC) : option ImageURL :=
  match pc with
  | WLock it | WCheck it | WUnlockSkip it | WSet it | WUnlock it | WGet it
  | WDownload it _ _ | WSend it _ => Some it
  | _ => None
  end.

(** The counter of the wait group and the number of workers, at each point
    of [Start]; the points after [c.wg.Wait()] are excluded. *)
Definition main_ok (s : State) : Prop :=
  match main_pc s with
  | SLoop i =>
      0 ≤ i ≤ MaxWorkers ∧ wg s = i ∧ Z.of_nat (length (workers s)) = i
  | SAdd i =>
      0 ≤ i < MaxWorkers ∧ wg s = i ∧ Z.of_nat (length (workers s)) = i
  | SGo i =>
      0 ≤ i < MaxWorkers ∧ wg s = i + 1 ∧ Z.of_nat (length (workers s)) = i
  | SSend | SWait =>
      wg s = MaxWorkers ∧ Z.of_nat (length (workers s)) = MaxWorkers
  | SClose | SReturned => False
  end.

(** Control: the channel stays open, nothing panics, no worker leaves its
    loop, and a worker is in the critical section exactly when it holds
    the lock. *)
Record control_inv (s : State) : Prop := mkControlInv {
  inv_open : closed s = false;
  inv_run : panicked s = false;
  inv_main : main_ok s;
  inv_alive : ∀ i pc, workers s !! i = Some pc → exited pc = false;
  inv_lock : ∀ i pc, workers s !! i = Some pc →
             (in_cs pc = true ↔ visitedLock s = Some i);
  inv_holder : ∀ i, visitedLock s = Some i → is_Some (workers s !! i)
}.

(** The depth of the item at each point of a worker: at most [MaxDepth + 1]
    when it is received, at most [MaxDepth] after the test of line 119. *)
Definition hand_ok (pc : WorkerPC) : Prop :=
  match pc with
  | WDepth it => 1 ≤ Depth it ≤ MaxDepth + 1
  | WLock it | WCheck it | WUnlockSkip it | WSet it | WUnlock it | WGet it
  | WDownload it _ _ | WSend it _ => 1 ≤ Depth it ≤ MaxDepth
  | WRange | WDeferred | WReturned => True
  end.

(** The depth of the item of an event: at most [MaxDepth] at a visited
    check and at a fetch. *)
Definition event_ok (e : Event) : Prop :=
  match e with
  | EvClaim it _ | EvFetchPage it => 1 ≤ Depth it ≤ MaxDepth
  | EvSend it | EvRecv it => 1 ≤ Depth it ≤ MaxDepth + 1
  | EvDownload _ => True
  end.

Record depth_inv (s : State) : Prop := mkDepthInv {
  inv_chan_depth : Forall (λ it, 1 ≤ Depth it ≤ MaxDepth + 1) (urlChan s);
  inv_hand_depth : Forall hand_ok (workers s);
  inv_event_depth : Forall event_ok (trace s)
}.

(** The number of visited checks that [url] has passed. *)
Definition won (url : string) (e : Event) : bool :=
  match e with
  | EvClaim it true => String.eqb (URL it) url
  | _ => false
  end.

Definition claims_won (url : string) (tr : list Event) : nat :=
  length (List.filter (won url) tr).

(** The worker is between the check and the set of [url] (line 128). *)
Definition is_setting (url : string) (pc : WorkerPC) : bool :=
  match pc with
  | WSet it => String.eqb (URL it) url
  | _ => false
  end.

Definition setters (s : State) (url : string) : bool :=
  existsb (is_setting url) (workers s).

(** Claims: a URL has passed the check once if it is in the visited set or
    about to be put there, and never otherwise; a URL about to be put
    there is not yet in the set; a check, passed or failed, comes with one
    passed check of the same URL. *)
Record claim_inv (s : State) : Prop := mkClaimInv {
  inv_won : ∀ u,
    claims_won u (trace s) = Nat.b2n (visited_get s u || setters s u);
  inv_fresh : ∀ u, setters s u = true → visited_get s u = false;
  inv_checked : ∀ it b,
    In (EvClaim it b) (trace s) → claims_won (URL it) (trace s) = 1%nat
}.

(** The event is a visited check. *)
Definition is_claim (e : Event) : bool :=
  match e with
  | EvClaim _ _ => true
  | _ => false
  end.

(** ** A small site, for the examples *)

Definition bytes (s : string) : list Byte.byte := list_byte_of_string s.

Definition tagA (href : string) : Token :=
  mkToken StartTagToken "a" [mkAttr "href" href].

Definition tagImg (src : string) : Token :=
  mkToken SelfClosingTagToken "img" [mkAttr "src" src].

(** Page 1 links to a dead host and to page 2; page 2 links back to page 1
    and to page 3; page 3 links to page 4. Every page shows the same
    image, page 3 twice; page 1 also shows an image that cannot be
    fetched. *)
Definition site_tokens (b : list Byte.byte) : list Token :=
  let page := string_of_list_byte b in
  if String.eqb page "page1" then
    [tagImg "https://x/a.png"; tagImg "https://x/broken.png";
     tagA "https://gone/"; tagA "https://x/2"]
  else if String.eqb page "page2" then
    [tagImg "https://x/a.png"; tagA "https://x/1"; tagA "https://x/3"]
  else if String.eqb page "page3" then
    [tagImg "https://x/a.png"; tagImg "https://x/a.png"; tagA "https://x/4"]
  else [].

Definition site_Get (t : nat) (url : string) : result Response :=
  if String.eqb url "https://x/1" then Ok (mkResponse (bytes "page1") None)
  else if String.eqb url "https://x/2" then Ok (mkResponse (bytes "page2") None)
  else if String.eqb url "https://x/3" then Ok (mkResponse (bytes "page3") None)
  else if String.eqb url "https://x/4" then Ok (mkResponse (bytes "page4") None)
  else if String.eqb url "https://x/a.png"
  then Ok (mkResponse (bytes "PNG-DATA") None)
  else Err "no such host".

Definition site : Env :=
  mkEnv site_tokens site_Get (λ _ _, None) (λ _ _, None) (λ _ _, None).

(** The same site on a disk that fails after three bytes. *)
Definition site_disk_full : Env :=
  mkEnv site_tokens site_Get (λ _ _, None) (λ _ _, None)
    (λ _ _, Some (3%nat, "no space left on device")).

(** The same site where no file can be created. *)
Definition site_read_only : Env :=
  mkEnv site_tokens site_Get (λ _ _, None)
    (λ _ _, Some "permission denied") (λ _ _, None).

Definition empty_world : World := mkWorld 0 ∅ ∅ [].

(** A world in which the image has been downloaded before. *)
Definition world_with_image : World :=
  mkWorld 0 {["images/a.png" := bytes "PNG-DATA"]} {["images"]} [].

(** [Start] runs up to [c.wg.Wait()], then worker 0 alone takes [n]
    steps. *)
Definition solo (n : nat) : list Thread :=
  replicate 40 Main ++ replicate n (Worker 0).

(** The path of a URL: the text ahead of the query ([?]) and of the
    fragment ([#]). *)
Fixpoint url_path (url : string) : string :=
  match url with
  | EmptyString => EmptyString
  | String c url' =>
      if Ascii.eqb c "?" || Ascii.eqb c "#" then EmptyString
      else String c (url_path url')
  end.

(** The final path segment of a URL: the text after the last [/] of its
    path. *)
Definition url_final_path_segment (url : string) : string :=
  after_last_slash (url_path url).

(** The round trip as it is claimed: whenever the fetch of an image URL
    succeeds, the file named by the final path segment of the URL inside
    the output directory holds the bytes fetched. *)
Definition roundtrip_as_claimed : Prop :=
  ∀ env w imgURL resp,
    isImageURL imgURL = true →
    http_Get env (now w) imgURL = Ok resp →
    files (downloadImage env imgURL w).2
      !! (DownloadDir +:+ "/" +:+ url_final_path_segment imgURL)
    = Some (Body resp).

(** A host that serves an image under a URL with a query. *)
Definition site_query : Env :=
  mkEnv (λ _, [])
    (λ _ url,
       if String.eqb url "https://x/a.png?x=/b.png"
       then Ok (mkResponse (bytes "PNG-DATA") None)
       else Err "no such host")
    (λ _ _, None) (λ _ _, None) (λ _ _, None).






(** A page whose markup breaks off after its first link. *)
Definition site_truncated : Env :=
  mkEnv (λ _, [tagA "/a"; mkToken ErrorToken EmptyString []; tagA "/b"])
    site_Get (λ _ _, None) (λ _ _, None) (λ _ _, None).

(** Two hosts that serve different images under the same file name. *)
Definition site_two_hosts : Env :=
  mkEnv (λ _, [])
    (λ _ url,
       if String.eqb url "https://x/photo.jpg"
       then Ok (mkResponse (bytes "first") None)
       else if String.eqb url "https://y/img/photo.jpg"
       then Ok (mkResponse (bytes "second") None)
       else Err "no such host")
    (λ _ _, None) (λ _ _, None) (λ _ _, None).

(** ** The channel, seen from the trace *)

(** The items sent and the items received, in order. *)
Definition sent_items (tr : list Event) : list ImageURL :=
  flat_map (λ e, match e with EvSend it => [it] | _ => [] end) tr.

Definition recv_items (tr : list Event) : list ImageURL :=
  flat_map (λ e, match e with EvRecv it => [it] | _ => [] end) tr.

(** What was sent is what was received followed by what waits in the
    buffer, and the buffer is within its capacity. *)
Record chan_inv (s : State) : Prop := mkChanInv {
  inv_fifo : sent_items (trace s) = recv_items (trace s) ++ urlChan s;
  inv_cap : (length (urlChan s) ≤ urlChanCap)%nat
}.

(** ** Pages fetched *)

(** The number of fetches of the page [url]. *)
Definition fetched (url : string) (e : Event) : bool :=
  match e with
  | EvFetchPage it => String.eqb (URL it) url
  | _ => false
  end.

Definition fetches (url : string) (tr : list Event) : nat :=
  length (List.filter (fetched url) tr).

(** The worker has passed the visited check of [url] and has not fetched
    the page yet (lines 128 to 131). *)
Definition is_pending (url : string) (pc : WorkerPC) : bool :=
  match pc with
  | WSet it | WUnlock it | WGet it => String.eqb (URL it) url
  | _ => false
  end.

Definition pending (s : State) (url : string) : nat :=
  length (List.filter (is_pending url) (workers s)).

(** Each passed check is followed by at most one fetch: the fetches made
    and the fetches to come add up to the checks passed. *)
Definition fetch_inv (s : State) : Prop :=
  ∀ u, (fetches u (trace s) + pending s u)%nat = claims_won u (trace s).

(** The worker is past the set of its URL and before the fetch. *)
Definition recorded_pc (s : State) (pc : WorkerPC) : Prop :=
  match pc with
  | WUnlock it | WGet it => visited_get s (URL it) = true
  | _ => True
  end.

Definition recorded_ev (s : State) (e : Event) : Prop :=
  match e with
  | EvFetchPage it => visited_get s (URL it) = true
  | _ => True
  end.

(** A page is fetched only once its URL is in the visited set. *)
Record recorded_inv (s : State) : Prop := mkRecordedInv {
  inv_rec_pc : Forall (recorded_pc s) (workers s);
  inv_rec_ev : Forall (recorded_ev s) (trace s)
}.

(** ** Before and after the seed *)

(** Nothing has happened yet: the channel and the trace are empty, the
    visited set is empty, the lock is free, the world is [w0] and every
    worker started so far waits at the receive. *)
Definition quiet (w0 : World) (s : State) : Prop :=
  urlChan s = [] ∧ trace s = [] ∧ visited s = ∅ ∧ visitedLock s = None ∧
  world s = w0 ∧ Forall (λ pc, pc = WRange) (workers s).

(** Until [Start] has sent the seed the crawl is quiet; from then on the
    first event of the trace is the send of the seed at depth 1. *)
Definition seed_inv (startURL : string) (w0 : World) (s : State) : Prop :=
  (main_pc s ≠ SWait ∧ quiet w0 s) ∨
  (main_pc s = SWait ∧
   ∃ rest, trace s = EvSend (mkImageURL startURL 1) :: rest).

(** ** What the crawl writes *)

(** The path is a file directly inside [images] whose name the classifier
    accepts. *)
Definition inside_images (p : string) : Prop :=
  ∃ name, p = "images/" +:+ name ∧ has_sep name = false ∧
          isImageURL name = true.

(** The images that a worker is about to download are accepted by the
    classifier. *)
Definition images_ok (pc : WorkerPC) : Prop :=
  match pc with
  | WDownload _ images _ => Forall (λ u, isImageURL u = true) images
  | _ => True
  end.

(** Against the world [w0] in which the crawl began: a file that differs
    is inside [images]; no directory has gone and none has come but
    [images]. *)
Record files_inv (w0 : World) (s : State) : Prop := mkFilesInv {
  inv_files : ∀ p, files (world s) !! p = files w0 !! p ∨ inside_images p;
  inv_dirs_lo : dirs w0 ⊆ dirs (world s);
  inv_dirs_hi : dirs (world s) ⊆ {[DownloadDir]} ∪ dirs w0;
  inv_images : Forall images_ok (workers s)
}.

(** ** [main] *)

(** The seed of [main] (line 166). *)
Definition main_startURL : string := "https://example.com".

(** [main] up to the call of [Start]: the crawler is made and the first
    line is printed (lines 166 to 168). *)
Definition main_boot (w : World) : State :=
  NewCrawler (Printf ("Starting crawl from " +:+ main_startURL +:+ nl) w).2.

(** What [main] has printed once the goroutines have run [sched]: the
    last line (line 170) is printed when [Start] has returned. *)
Definition main_stdout (env : Env) (sched : list Thread) (w : World)
  : list string :=
  let s := exec env main_startURL sched (main_boot w) in
  match main_pc s with
  | SReturned => stdout (world s) ++ ["Crawling completed" +:+ nl]
  | _ => stdout (world s)
  end.

(** A line about one image or one page. *)
Definition is_status (line : string) : bool :=
  String.prefix "Downloaded: " line || String.prefix "Error fetching " line
  || String.prefix "Error downloading " line.

(** Since the world [w0], the crawl has printed lines about images and
    pages only. *)
Definition stdout_inv (w0 : World) (s : State) : Prop :=
  ∃ l, stdout (world s) = stdout w0 ++ l ∧ forallb is_status l = true.

(** The last character of a string. *)
Fixpoint last_char (s : string) : option ascii :=
  match s with
  | EmptyString => None
  | String c EmptyString => Some c
  | String _ s' => last_char s'
  end.

(** * Properties *)

(** ** Strings *)

Lemma string_app_nil_r (s : string) : s +:+ EmptyString = s.
Proof. induction s as [|c s IH]; [done | exact (f_equal (String c) IH)]. Qed.
Lemma string_app_assoc (a b c : string) : (a +:+ b) +:+ c = a +:+ (b +:+ c).
Proof. induction a as [|x a IH]; [done | exact (f_equal (String x) IH)]. Qed.
Lemma string_app_inv_head (p a b : string) : p +:+ a = p +:+ b → a = b.
Proof. induction p as [|x p IH]; [done | intros [= H]; auto]. Qed.

(** ** Checks of the library models on known values *)

Example Base_ex1 : Filepath.Base "https://example.com/a/b.png" = "b.png".
Proof. reflexivity. Qed.
Example Base_ex2 : Filepath.Base "https://example.com/a/" = "a".
Proof. reflexivity. Qed.
Example Base_ex3 : Filepath.Base "///" = "/".
Proof. reflexivity. Qed.
Example Clean_ex1 : Filepath.Clean "a//b/./c/../d" = "a/b/d".
Proof. reflexivity. Qed.
Example Clean_ex2 : Filepath.Clean "/../a/.." = "/".
Proof. reflexivity. Qed.
Example Clean_ex3 : Filepath.Clean "../../a" = "../../a".
Proof. reflexivity. Qed.
Example Join_ex1 : Filepath.Join ["images"; "b.png"] = "images/b.png".
Proof. vm_compute. reflexivity. Qed.
Example Join_ex2 : Filepath.Join ["images"; ".."] = ".".
Proof. vm_compute. reflexivity. Qed.
Example isImageURL_ex1 : isImageURL "https://example.com/a/b.png" = true.
Proof. reflexivity. Qed.
Example isImageURL_ex2 : isImageURL "https://example.com/a/b.PNG" = false.
Proof. reflexivity. Qed.
Example isImageURL_ex3 : isImageURL "https://example.com/a/b.png?w=1" = false.
Proof. reflexivity. Qed.
Example isImageURL_ex4 : isImageURL "bjpg" = false.
Proof. reflexivity. Qed.

(** ** [isImageURL] *)

Module RegexpFacts.
Import Regexp.

Lemma rmatch_Lit c s t : In t (rmatch (Lit c) s) ↔ s = String c t.
Proof.
  simpl. destruct s as [|c' s']; [split; [intros [] | done]|].
  destruct (Ascii.eqb_spec c c') as [->|Hne]; simpl.
  - split; [intros [->|[]]; done | intros [= ->]; by left].
  - split; [intros [] | intros [= H _]; done].
Qed.

Lemma rmatch_Cat r1 r2 s t :
  In t (rmatch (Cat r1 r2) s) ↔ ∃ m, In m (rmatch r1 s) ∧ In t (rmatch r2 m).
Proof. simpl. apply in_flat_map. Qed.

Lemma rmatch_Alt r1 r2 s t :
  In t (rmatch (Alt r1 r2) s) ↔ In t (rmatch r1 s) ∨ In t (rmatch r2 s).
Proof. simpl. apply in_app_iff. Qed.

Lemma rmatch_EndText s t : In t (rmatch EndText s) ↔ s = EmptyString ∧ t = EmptyString.
Proof.
  destruct s; simpl; [|split; [intros [] | intros [[=] _]]].
  split; [intros [<-|[]]; done | intros [_ ->]; by left].
Qed.

Lemma rmatch_word w s t : In t (rmatch (word w) s) ↔ s = w +:+ t.
Proof.
  revert s. induction w as [|c w IH]; intros s.
  - simpl. split; [intros [->|[]]; done | intros ->; by left].
  - change (word (String c w)) with (Cat (Lit c) (word w)).
    rewrite rmatch_Cat. split.
    + intros (m & Hm & Ht). apply rmatch_Lit in Hm as ->. apply IH in Ht as ->. done.
    + intros ->. exists (w +:+ t). split; [by apply rmatch_Lit | by apply IH].
Qed.

Lemma matches_here_spec r s : matches_here r s = true ↔ ∃ t, In t (rmatch r s).
Proof.
  unfold matches_here. destruct (rmatch r s) as [|t l].
  - split; [done | intros [t []]].
  - split; [intros _; exists t; by left | done].
Qed.

Lemma MatchString_spec r s :
  MatchString r s = true ↔ ∃ p t, s = p +:+ t ∧ matches_here r t = true.
Proof.
  induction s as [|c s IH]; simpl; rewrite orb_true_iff.
  - split.
    + intros [H|H]; [|done]. exists EmptyString, EmptyString. split; [reflexivity | assumption].
    + intros (p & t & Hs & H). left. destruct p; [|discriminate Hs]. change (EmptyString = t) in Hs. by subst.
  - rewrite IH. split.
    + intros [H|(p & t & -> & H)].
      * exists EmptyString, (String c s). split; [reflexivity | assumption].
      * exists (String c p), t. split; [reflexivity | assumption].
    + intros (p & t & Hs & H). destruct p as [|c' p].
      * change (String c s = t) in Hs. subst. by left.
      * change (String c s = String c' (p +:+ t)) in Hs. injection Hs as -> ->. right. exists p, t. split; [reflexivity | assumption].
Qed.

End RegexpFacts.

Lemma imgRegex_here t :
  Regexp.matches_here imgRegex t = true ↔ In t image_suffixes.
Proof.
  rewrite RegexpFacts.matches_here_spec. unfold imgRegex, image_suffixes.
  split.
  - intros (x & H). apply RegexpFacts.rmatch_Cat in H as (m & Hdot & H).
    apply RegexpFacts.rmatch_Lit in Hdot as ->.
    apply RegexpFacts.rmatch_Cat in H as (e & H & He).
    apply RegexpFacts.rmatch_EndText in He as [-> ->].
    repeat (apply RegexpFacts.rmatch_Alt in H as [H|H]);
      apply RegexpFacts.rmatch_word in H as ->; simpl; tauto.
  - intros H. exists EmptyString.
    assert (∃ w, t = String "." w ∧ In w ["jpg"; "jpeg"; "png"; "gif"; "bmp"]) as (w & -> & Hw).
    { simpl in H. destruct H as [<-|[<-|[<-|[<-|[<-|[]]]]]]; eexists; (split; [reflexivity|simpl; tauto]). }
    apply RegexpFacts.rmatch_Cat. exists w. split; [by apply RegexpFacts.rmatch_Lit|].
    apply RegexpFacts.rmatch_Cat. exists EmptyString. split; [|by apply RegexpFacts.rmatch_EndText].
    simpl in Hw.
    destruct Hw as [<-|[<-|[<-|[<-|[<-|[]]]]]]; vm_compute; tauto.
Qed.

Lemma isImageURL_suffix s :
  isImageURL s = true ↔ ∃ suf, In suf image_suffixes ∧ has_suffix s suf.
Proof.
  unfold isImageURL. rewrite RegexpFacts.MatchString_spec. split.
  - intros (p & t & -> & H). exists t. split; [by apply imgRegex_here | by exists p].
  - intros (suf & Hin & p & ->). exists p, suf. split; [done | by apply imgRegex_here].
Qed.

(** ** [parseHTML] *)

Lemma collect_href_spec attrs links :
  collect_href attrs links = links ++ attr_values "href" attrs.
Proof.
  revert links. induction attrs as [|a attrs IH]; intros links; simpl.
  - by rewrite app_nil_r.
  - destruct (String.eqb (Key a) "href"); rewrite IH; simpl; [|done].
    by rewrite <- app_assoc.
Qed.

Lemma collect_src_spec attrs images :
  collect_src attrs images =
  images ++ flat_map (λ v, if isImageURL v then [v] else [])
              (attr_values "src" attrs).
Proof.
  revert images. induction attrs as [|a attrs IH]; intros images; simpl.
  - by rewrite app_nil_r.
  - destruct (String.eqb (Key a) "src"); simpl; [|by rewrite IH].
    destruct (isImageURL (Val a)); rewrite IH; simpl; [|done].
    by rewrite <- app_assoc.
Qed.

Lemma parse_loop_spec toks links images :
  parse_loop toks links images =
  (links ++ page_links toks, images ++ page_images toks).
Proof.
  unfold page_links, page_images.
  revert links images.
  induction toks as [|token toks IH]; intros links images; simpl.
  - by rewrite !app_nil_r.
  - unfold is_open_tag.
    destruct (Type_ token) eqn:Ht; simpl; rewrite ?Ht; simpl.
    all: try (destruct (String.eqb_spec (Data token) "a") as [Ha|Ha];
              [rewrite Ha; simpl
              |destruct (String.eqb (Data token) "img"); simpl]).
    all: rewrite ?IH, ?collect_href_spec, ?collect_src_spec, ?app_nil_r,
           <- ?app_assoc; done.
Qed.

Lemma parse_loop_error pre token post links images :
  Type_ token = ErrorToken →
  parse_loop (pre ++ token :: post) links images = parse_loop pre links images.
Proof.
  intros Ht. revert links images.
  induction pre as [|t pre IH]; intros links images; simpl.
  - by rewrite Ht.
  - destruct (Type_ t); try done;
      repeat (match goal with |- context [if ?b then _ else _] => destruct b end);
      apply IH.
Qed.

(** ** [filepath.Base] and [filepath.Join] on image URLs *)

Lemma string_app_cons c (a b : string) : String c a +:+ b = String c (a +:+ b).
Proof. reflexivity. Qed.

Lemma string_app_nil_l (a : string) : EmptyString +:+ a = a.
Proof. reflexivity. Qed.

Lemma string_length_app (a b : string) :
  String.length (a +:+ b) = (String.length a + String.length b)%nat.
Proof. induction a as [|c a IH]; [done | rewrite string_app_cons; simpl; lia]. Qed.

Lemma is_sep_true c : Filepath.is_sep c = true → c = "/"%char.
Proof. unfold Filepath.is_sep. by intros ?%Ascii.eqb_eq. Qed.

Lemma has_sep_app a b : has_sep (a +:+ b) = has_sep a || has_sep b.
Proof.
  induction a as [|c a IH]; [done|].
  rewrite string_app_cons. simpl. rewrite IH. by rewrite orb_assoc.
Qed.

(** Every string is a directory prefix followed by a segment. *)
Lemma split_last_sep (p : string) :
  ∃ pre stem, p = pre +:+ stem ∧ dir_prefix pre ∧ has_sep stem = false.
Proof.
  induction p as [|c p (pre & stem & -> & Hpre & Hstem)].
  - exists EmptyString, EmptyString. repeat split. by left.
  - destruct Hpre as [->|[q ->]].
    + destruct (Filepath.is_sep c) eqn:Hc.
      * apply is_sep_true in Hc as ->.
        exists "/"%string, stem. repeat split; [|done].
        right. by exists EmptyString.
      * exists EmptyString, (String c stem). repeat split; [by left|].
        simpl. by rewrite Hc.
    + exists (String c q +:+ "/"), stem. repeat split; [|done].
      right. by exists (String c q).
Qed.

Lemma after_last_slash_nosep s : has_sep s = false → after_last_slash s = s.
Proof.
  destruct s as [|c s]; [done|]. simpl.
  intros [Hc Hs]%orb_false_iff. by rewrite Hs, Hc.
Qed.

Lemma after_last_slash_app pre seg :
  dir_prefix pre → has_sep seg = false → after_last_slash (pre +:+ seg) = seg.
Proof.
  intros [->|[q ->]] Hseg; [by apply after_last_slash_nosep|].
  induction q as [|c q IH].
  - change (after_last_slash (String "/" seg) = seg). simpl. by rewrite Hseg.
  - rewrite !string_app_cons. simpl.
    rewrite !has_sep_app. simpl. rewrite orb_true_r. simpl. exact IH.
Qed.

Lemma last_elem_nosep acc s :
  has_sep s = false → Filepath.last_elem acc s = acc +:+ s.
Proof.
  revert acc. induction s as [|c s IH]; intros acc; simpl.
  - by rewrite string_app_nil_r.
  - intros [Hc Hs]%orb_false_iff. rewrite Hc, IH by done.
    by rewrite string_app_assoc.
Qed.

Lemma last_elem_app acc pre seg :
  dir_prefix pre → has_sep seg = false →
  Filepath.last_elem acc (pre +:+ seg) =
  (if String.eqb pre EmptyString then acc else EmptyString) +:+ seg.
Proof.
  intros [->|[q ->]] Hseg; [by apply last_elem_nosep|].
  assert (String.eqb (q +:+ "/") EmptyString = false) as -> by by destruct q.
  revert acc. induction q as [|c q IH]; intros acc.
  - change (Filepath.last_elem EmptyString seg = EmptyString +:+ seg).
    by apply last_elem_nosep.
  - rewrite !string_app_cons. simpl. destruct (Filepath.is_sep c); apply IH.
Qed.

Lemma ends_nonsep_app a b : ends_nonsep b = true → ends_nonsep (a +:+ b) = true.
Proof.
  intros Hb. induction a as [|c a IH]; [done|].
  rewrite string_app_cons. simpl. destruct (a +:+ b) eqn:E; [|done].
  by destruct a, b.
Qed.

Lemma strip_trailing_id s : ends_nonsep s = true → Filepath.strip_trailing s = s.
Proof.
  induction s as [|c s IH]; [done|]. simpl.
  destruct s as [|c' s'].
  - simpl. intros H. by destruct (Filepath.is_sep c).
  - intros H. rewrite IH by done. done.
Qed.

Lemma Base_segment pre seg :
  dir_prefix pre → has_sep seg = false → ends_nonsep seg = true →
  Filepath.Base (pre +:+ seg) = seg.
Proof.
  intros Hpre Hsep Hend. unfold Filepath.Base.
  assert (ends_nonsep (pre +:+ seg) = true) as Hurl by by apply ends_nonsep_app.
  destruct (String.eqb_spec (pre +:+ seg) EmptyString) as [E|_].
  { by rewrite E in Hurl. }
  rewrite strip_trailing_id, last_elem_app by done.
  assert ((if String.eqb pre EmptyString then EmptyString else EmptyString) = EmptyString)
    as -> by by destruct (String.eqb pre EmptyString).
  rewrite string_app_nil_l.
  destruct (String.eqb_spec seg EmptyString) as [E|_]; [by rewrite E in Hend | done].
Qed.

Lemma split_sep_nosep acc s :
  has_sep s = false → Filepath.split_sep acc s = [acc +:+ s].
Proof.
  revert acc. induction s as [|c s IH]; intros acc; simpl.
  - by rewrite string_app_nil_r.
  - intros [Hc Hs]%orb_false_iff. rewrite Hc, IH by done.
    by rewrite string_app_assoc.
Qed.

Lemma Join_segment seg :
  has_sep seg = false → (3 ≤ String.length seg)%nat →
  Filepath.Join [DownloadDir; seg] = DownloadDir +:+ "/" +:+ seg.
Proof.
  intros Hsep Hlen.
  assert (String.eqb seg EmptyString = false ∧ String.eqb seg "." = false
          ∧ String.eqb seg ".." = false) as (E0 & E1 & E2).
  { repeat split; apply String.eqb_neq; intros ->; simpl in Hlen; lia. }
  change (Filepath.Clean (String "i" ("mages/" +:+ seg)) = "images/" +:+ seg).
  unfold Filepath.Clean.
  change (Filepath.split_sep EmptyString (String "i" ("mages/" +:+ seg)))
    with ("images"%string :: Filepath.split_sep EmptyString seg).
  rewrite split_sep_nosep by done. rewrite string_app_nil_l.
  simpl. rewrite E0, E1, E2. simpl.
  by destruct seg.
Qed.

Lemma image_suffix_shape suf :
  In suf image_suffixes →
  has_sep suf = false ∧ ends_nonsep suf = true ∧ (3 ≤ String.length suf)%nat.
Proof.
  unfold image_suffixes. simpl.
  intros [<-|[<-|[<-|[<-|[<-|[]]]]]]; repeat split; simpl; lia.
Qed.

(** On an image URL, the name of the file is the text after the last [/]
    of the URL string and the file is in the output directory. *)
Lemma image_filename url :
  isImageURL url = true →
  getFilenameFromURL url = after_last_slash url ∧
  Filepath.Join [DownloadDir; getFilenameFromURL url] = image_path url.
Proof.
  intros (suf & Hsuf & p & ->)%isImageURL_suffix.
  destruct (image_suffix_shape suf Hsuf) as (Hs1 & Hs2 & Hs3).
  destruct (split_last_sep p) as (pre & stem & -> & Hpre & Hstem).
  rewrite string_app_assoc.
  assert (has_sep (stem +:+ suf) = false) as Hsep.
  { by rewrite has_sep_app, Hstem, Hs1. }
  unfold getFilenameFromURL, image_path.
  rewrite Base_segment, after_last_slash_app; try done.
  - split; [done|]. apply Join_segment; [done|]. rewrite string_length_app. lia.
  - by apply ends_nonsep_app.
Qed.

(** ** [downloadImage] *)

Local Arguments Filepath.Join : simpl never.
Local Arguments getFilenameFromURL : simpl never.

Ltac io_unfold :=
  unfold downloadImage, client_Get, MkdirAll, Create, Copy, tick, add_dir,
    set_file, Printf, mbind, mret, IO_bind, IO_ret; simpl.

Lemma downloadImage_ok env w imgURL resp :
  let path := Filepath.Join [DownloadDir; getFilenameFromURL imgURL] in
  http_Get env (now w) imgURL = Ok resp →
  BodyErr resp = None →
  os_MkdirAll env (1 + now w)%nat DownloadDir = None →
  os_Create env (2 + now w)%nat path = None →
  copy_ok env (3 + now w)%nat path (Body resp) →
  downloadImage env imgURL w =
  (None,
   mkWorld (4 + now w)%nat (<[path := Body resp]> (files w))
     ({[DownloadDir]} ∪ dirs w)
     (stdout w ++ ["Downloaded: " +:+ path +:+ nl])).
Proof.
  intros path Hget Herr Hmk Hcr Hcp. cbn [Nat.add] in Hmk, Hcr, Hcp. io_unfold.
  rewrite Hget. simpl. rewrite Hmk. simpl. fold path. rewrite Hcr. simpl.
  unfold copy_ok in Hcp.
  destruct (disk_fault env (S (S (S (now w)))) path) as [[n e]|] eqn:Hf; simpl.
  - specialize (Hcp n e eq_refl).
    destruct (Nat.ltb_spec n (length (Body resp))) as [?|_]; [lia|]. simpl.
    rewrite Herr. by rewrite insert_insert_eq.
  - rewrite Herr. by rewrite insert_insert_eq.
Qed.


Lemma downloadImage_read_fault env w imgURL resp e :
  let path := Filepath.Join [DownloadDir; getFilenameFromURL imgURL] in
  http_Get env (now w) imgURL = Ok resp →
  BodyErr resp = Some e →
  os_MkdirAll env (1 + now w)%nat DownloadDir = None →
  os_Create env (2 + now w)%nat path = None →
  copy_ok env (3 + now w)%nat path (Body resp) →
  downloadImage env imgURL w =
  (Some e,
   mkWorld (4 + now w)%nat (<[path := Body resp]> (files w))
     ({[DownloadDir]} ∪ dirs w) (stdout w)).
Proof.
  intros path Hget Herr Hmk Hcr Hcp. cbn [Nat.add] in Hmk, Hcr, Hcp. io_unfold.
  rewrite Hget. simpl. rewrite Hmk. simpl. fold path. rewrite Hcr. simpl.
  unfold copy_ok in Hcp.
  destruct (disk_fault env (S (S (S (now w)))) path) as [[n e']|] eqn:Hf; simpl.
  - specialize (Hcp n e' eq_refl).
    destruct (Nat.ltb_spec n (length (Body resp))) as [?|_]; [lia|]. simpl.
    rewrite Herr. by rewrite insert_insert_eq.
  - rewrite Herr. by rewrite insert_insert_eq.
Qed.

(** Whatever the environment does, [downloadImage] leaves the clock no
    earlier and keeps what was printed. *)
Lemma downloadImage_stdout env img w :
  ∃ l, stdout (downloadImage env img w).2 = stdout w ++ l.
Proof.
  io_unfold.
  destruct (http_Get env (now w) img); simpl; [|by exists []; rewrite app_nil_r].
  destruct (os_MkdirAll _ _ _); simpl; [by exists []; rewrite app_nil_r|].
  destruct (os_Create _ _ _); simpl; [by exists []; rewrite app_nil_r|].
  destruct (disk_fault _ _ _) as [[n e]|]; simpl.
  - destruct (n <? _)%nat; simpl; [by exists []; rewrite app_nil_r|].
    destruct (BodyErr a); simpl; [by exists []; rewrite app_nil_r | eexists; reflexivity].
  - destruct (BodyErr a); simpl; [by exists []; rewrite app_nil_r | eexists; reflexivity].
Qed.

(** ** The transition system *)

Local Arguments client_Get : simpl never.
Local Arguments downloadImage : simpl never.
Local Arguments parseHTML : simpl never.
Local Arguments Printf : simpl never.

Lemma lookup_goto i pc s j :
  is_Some (workers s !! i) →
  workers (goto i pc s) !! j = if decide (i = j) then Some pc else workers s !! j.
Proof.
  intros Hi%lookup_lt_is_Some. simpl. destruct (decide (i = j)) as [->|Hne].
  - by apply list_lookup_insert_eq.
  - by apply list_lookup_insert_ne.
Qed.

Lemma length_goto i pc s : length (workers (goto i pc s)) = length (workers s).
Proof. simpl. apply length_insert. Qed.

Lemma exec_app env seed sched1 sched2 s :
  exec env seed (sched1 ++ sched2) s = exec env seed sched2 (exec env seed sched1 s).
Proof. unfold exec. apply fold_left_app. Qed.

Lemma exec_cons env seed t sched s :
  exec env seed (t :: sched) s = exec env seed sched (default s (step env seed t s)).
Proof. reflexivity. Qed.

(** An invariant of the steps holds in every reachable state. *)
Lemma exec_invariant env seed (P : State → Prop) :
  (∀ t s s', P s → step env seed t s = Some s' → P s') →
  ∀ sched s, P s → P (exec env seed sched s).
Proof.
  intros Hstep sched. induction sched as [|t sched IH]; intros s Hs; [done|].
  rewrite exec_cons. apply IH.
  destruct (step env seed t s) as [s'|] eqn:E; simpl; eauto.
Qed.

Lemma int_add_small a : -2 ^ 63 ≤ a + 1 < 2 ^ 63 → int_add a 1 = a + 1.
Proof.
  intros H. unfold int_add, int_wrap.
  rewrite Z.mod_small by lia. lia.
Qed.

Lemma main_ok_ext s s' :
  main_pc s' = main_pc s → wg s' = wg s →
  length (workers s') = length (workers s) → main_ok s → main_ok s'.
Proof. unfold main_ok. by intros -> -> ->. Qed.

Lemma control_init w : control_inv (NewCrawler w).
Proof.
  by split.
Qed.

(** A worker moves between two points outside the critical section, or
    between two points inside it, and touches neither the lock nor the
    counters. *)
Lemma control_goto i pc pc' s s' :
  control_inv s → workers s !! i = Some pc →
  workers s' = <[i := pc']> (workers s) →
  closed s' = closed s → panicked s' = panicked s → main_pc s' = main_pc s →
  wg s' = wg s → visitedLock s' = visitedLock s →
  exited pc' = false → in_cs pc' = in_cs pc →
  control_inv s'.
Proof.
  intros [H1 H2 H3 H4 H5 H6] Hi Hw Hc Hp Hm Hg Hl He Hcs.
  assert (∀ j, workers s' !! j = if decide (i = j) then Some pc' else workers s !! j) as Hlk.
  { intros j. rewrite Hw. destruct (decide (i = j)) as [->|Hne].
    - apply list_lookup_insert_eq. by eapply lookup_lt_Some.
    - by apply list_lookup_insert_ne. }
  split.
  - congruence.
  - congruence.
  - apply (main_ok_ext s); [done | done | | done]. by rewrite Hw, length_insert.
  - intros j pcj. rewrite Hlk. case_decide; [by intros [= <-] | apply H4].
  - intros j pcj. rewrite Hlk, Hl. case_decide as E.
    + intros [= <-]. subst j. rewrite Hcs. by apply H5.
    + apply H5.
  - intros j. rewrite Hl, Hlk. case_decide; [done | apply H6].
Qed.

Lemma control_acquire i it s :
  control_inv s → workers s !! i = Some (WLock it) → visitedLock s = None →
  control_inv (goto i (WCheck it) (set_lock (Some i) s)).
Proof.
  intros [H1 H2 H3 H4 H5 H6] Hi Hl.
  assert (∀ j, workers (goto i (WCheck it) (set_lock (Some i) s)) !! j =
               if decide (i = j) then Some (WCheck it) else workers s !! j) as Hlk.
  { intros j. by rewrite lookup_goto. }
  split; try done.
  - apply (main_ok_ext s); [done | done | simpl; apply length_insert | done].
  - intros j pcj. rewrite Hlk. case_decide; [by intros [= <-] | apply H4].
  - intros j pcj. rewrite Hlk. simpl. case_decide as E.
    + intros [= <-]. by subst j.
    + intros Hj. split.
      * intros Hcs. apply (H5 _ _ Hj) in Hcs. congruence.
      * intros [= ?]. done.
  - intros j. simpl. intros [= <-]. rewrite Hlk. by case_decide.
Qed.

Lemma control_release i pc pc' s :
  control_inv s → workers s !! i = Some pc → in_cs pc = true →
  in_cs pc' = false → exited pc' = false →
  control_inv (goto i pc' (set_lock None s)).
Proof.
  intros [H1 H2 H3 H4 H5 H6] Hi Hcs Hcs' He.
  assert (∀ j, workers (goto i pc' (set_lock None s)) !! j =
               if decide (i = j) then Some pc' else workers s !! j) as Hlk.
  { intros j. by rewrite lookup_goto. }
  assert (visitedLock s = Some i) as Hl by by apply (H5 _ _ Hi).
  split; try done.
  - apply (main_ok_ext s); [done | done | simpl; apply length_insert | done].
  - intros j pcj. rewrite Hlk. case_decide; [by intros [= <-] | apply H4].
  - intros j pcj. rewrite Hlk. simpl. case_decide as E.
    + intros [= <-]. by rewrite Hcs'.
    + intros Hj. split; [|done].
      intros Hc. apply (H5 _ _ Hj) in Hc. congruence.
Qed.

Lemma control_spawn i s :
  control_inv s → main_pc s = SGo i →
  control_inv (set_main (SLoop (int_add i 1)) (set_workers (workers s ++ [WRange]) s)).
Proof.
  intros [H1 H2 H3 H4 H5 H6] Hm.
  unfold main_ok in H3. rewrite Hm in H3. destruct H3 as (Hi & Hwg & Hlen).
  unfold MaxWorkers in Hi.
  split; try done.
  - unfold main_ok. simpl. rewrite int_add_small by lia.
    rewrite length_app. simpl. unfold MaxWorkers. lia.
  - simpl. intros j pcj [Hj|[_ Hj]]%lookup_app_Some; [by eapply H4|].
    by apply list_lookup_singleton_Some in Hj as [_ <-].
  - simpl. intros j pcj [Hj|[Hge Hj]]%lookup_app_Some; [by apply H5|].
    apply list_lookup_singleton_Some in Hj as [_ <-]. split; [done|].
    intros Hl. apply H6 in Hl as ?%lookup_lt_is_Some. lia.
  - simpl. intros j Hl. apply H6 in Hl as [pc Hpc].
    exists pc. by apply lookup_app_l_Some.
Qed.

Lemma control_step env seed t s s' :
  control_inv s → step env seed t s = Some s' → control_inv s'.
Proof.
  intros HI Hstep. unfold step in Hstep.
  rewrite (inv_run _ HI) in Hstep. destruct t as [|i].
  - (* Start *)
    unfold main_step in Hstep. pose proof (inv_main _ HI) as Hm.
    unfold main_ok in Hm.
    destruct (main_pc s) as [i|i|i| | | |] eqn:Hpc; try done.
    + destruct Hm as (Hi & Hwg & Hlen).
      destruct (Z.ltb_spec i MaxWorkers); injection Hstep as <-;
        (destruct HI; split; try done; unfold main_ok; simpl; lia).
    + destruct Hm as (Hi & Hwg & Hlen). unfold wg_Add in Hstep.
      destruct (Z.ltb_spec (wg s + 1) 0); [lia|]. simpl in Hstep.
      rewrite (inv_run _ HI) in Hstep. injection Hstep as <-.
      destruct HI; split; try done. unfold main_ok; simpl; lia.
    + injection Hstep as <-. by apply control_spawn.
    + unfold chan_send in Hstep. rewrite (inv_open _ HI) in Hstep.
      destruct (_ <? _)%nat; [|done]. simpl in Hstep.
      rewrite (inv_run _ HI) in Hstep. injection Hstep as <-.
      destruct HI; split; try done.
    + destruct Hm as [Hwg _]. rewrite Hwg in Hstep. done.
  - (* worker [i] *)
    destruct (workers s !! i) as [pc|] eqn:Hi; [|done].
    pose proof (inv_alive _ HI _ _ Hi) as Halive.
    destruct pc as [|it|it|it|it|it|it|it|it [|img images] links
                   |it [|link links]| |]; unfold worker_step in Hstep; try done.
    + (* WRange *)
      destruct (urlChan s) as [|imgURL rest].
      * by rewrite (inv_open _ HI) in Hstep.
      * injection Hstep as <-. by eapply (control_goto _ _ _ _ _ HI Hi).
    + destruct (_ >? _); injection Hstep as <-;
        by eapply (control_goto _ _ _ _ _ HI Hi).
    + destruct (visitedLock s) eqn:Hl; [done|]. injection Hstep as <-.
      by apply control_acquire.
    + destruct (visited_get _ _); injection Hstep as <-;
        by eapply (control_goto _ _ _ _ _ HI Hi).
    + assert (visitedLock s = Some i) as Hl by by apply (inv_lock _ HI _ _ Hi).
      rewrite Hl in Hstep. injection Hstep as <-.
      by eapply control_release.
    + injection Hstep as <-. by eapply (control_goto _ _ _ _ _ HI Hi).
    + assert (visitedLock s = Some i) as Hl by by apply (inv_lock _ HI _ _ Hi).
      rewrite Hl in Hstep. injection Hstep as <-.
      by eapply control_release.
    + destruct (client_Get _ _ _) as [[resp|err] w].
      * destruct (parseHTML _ _ _ _) as [links images]. injection Hstep as <-.
        by eapply (control_goto _ _ _ _ _ HI Hi).
      * injection Hstep as <-. by eapply (control_goto _ _ _ _ _ HI Hi).
    + injection Hstep as <-. by eapply (control_goto _ _ _ _ _ HI Hi).
    + destruct (downloadImage _ _ _) as [[err|] w]; injection Hstep as <-;
        by eapply (control_goto _ _ _ _ _ HI Hi).
    + injection Hstep as <-. by eapply (control_goto _ _ _ _ _ HI Hi).
    + unfold chan_send in Hstep. rewrite (inv_open _ HI) in Hstep.
      destruct (_ <? _)%nat; [|done]. simpl in Hstep.
      rewrite (inv_run _ HI) in Hstep. injection Hstep as <-.
      by eapply (control_goto _ _ _ _ _ HI Hi).
Qed.

(** ** Depths *)

Lemma depth_init w : depth_inv (NewCrawler w).
Proof. split; simpl; constructor. Qed.

Ltac depth_fields HD Hi :=
  let Hc := fresh "Hc" in
  let Hw := fresh "Hw" in
  let He := fresh "He" in
  let Hpc := fresh "Hpc" in
  destruct HD as [Hc Hw He];
  pose proof (Forall_lookup_1 _ _ _ _ Hw Hi) as Hpc; simpl in Hpc;
  split; simpl;
  [ try assumption
  | apply Forall_insert; [assumption | simpl; try lia]
  | first [ assumption
          | apply Forall_app; split;
            [assumption | apply Forall_singleton; simpl; try lia] ] ].

Lemma depth_step env seed t s s' :
  depth_inv s → step env seed t s = Some s' → depth_inv s'.
Proof.
  intros HD Hstep. unfold step in Hstep.
  destruct (panicked s) eqn:Hp; [done|]. destruct t as [|i].
  - unfold main_step in Hstep.
    destruct (main_pc s) as [i|i|i| | | |] eqn:Hpc; try done.
    + destruct (i <? MaxWorkers); injection Hstep as <-; by destruct HD.
    + unfold wg_Add in Hstep. destruct (_ <? 0); simpl in Hstep;
        [|rewrite Hp in Hstep]; injection Hstep as <-; by destruct HD.
    + injection Hstep as <-. destruct HD as [Hc Hw He]. split; simpl; try done.
      apply Forall_app. split; [done|]. by repeat constructor.
    + unfold chan_send in Hstep. destruct (closed s).
      { injection Hstep as <-. by destruct HD. }
      destruct (_ <? _)%nat; [|done]. simpl in Hstep. rewrite Hp in Hstep.
      injection Hstep as <-. destruct HD as [Hc Hw He].
      split; simpl; try done; apply Forall_app; (split; [done|]);
        apply Forall_singleton; simpl; unfold MaxDepth; lia.
    + destruct (wg s =? 0); [|done]. injection Hstep as <-. by destruct HD.
    + destruct (closed s); injection Hstep as <-; by destruct HD.
  - destruct (workers s !! i) as [pc|] eqn:Hi; [|done].
    destruct pc as [|it|it|it|it|it|it|it|it [|img images] links
                   |it [|link links]| |]; unfold worker_step in Hstep; try done.
    + destruct (urlChan s) as [|imgURL rest] eqn:Hq.
      * destruct (closed s); [|done]. injection Hstep as <-. depth_fields HD Hi.
      * injection Hstep as <-.
        pose proof (inv_chan_depth _ HD) as Hq'. rewrite Hq in Hq'.
        apply Forall_cons in Hq' as [Hit Hrest].
        depth_fields HD Hi.
    + destruct (Depth it >? MaxDepth) eqn:E; injection Hstep as <-;
        depth_fields HD Hi.
    + destruct (visitedLock s); [done|]. injection Hstep as <-. depth_fields HD Hi.
    + destruct (visited_get _ _); injection Hstep as <-; depth_fields HD Hi.
    + destruct (visitedLock s); injection Hstep as <-; [depth_fields HD Hi | by destruct HD].
    + injection Hstep as <-. depth_fields HD Hi.
    + destruct (visitedLock s); injection Hstep as <-; [depth_fields HD Hi | by destruct HD].
    + destruct (client_Get _ _ _) as [[resp|err] w].
      * destruct (parseHTML _ _ _ _) as [links images]. injection Hstep as <-.
        depth_fields HD Hi.
      * injection Hstep as <-. depth_fields HD Hi.
    + injection Hstep as <-. depth_fields HD Hi.
    + destruct (downloadImage _ _ _) as [[err|] w]; injection Hstep as <-;
        depth_fields HD Hi.
    + injection Hstep as <-. depth_fields HD Hi.
    + unfold chan_send in Hstep. destruct (closed s).
      { simpl in Hstep. injection Hstep as <-. by destruct HD. }
      destruct (_ <? _)%nat; [|done]. simpl in Hstep. rewrite Hp in Hstep.
      injection Hstep as <-.
      pose proof (Forall_lookup_1 _ _ _ _ (inv_hand_depth _ HD) Hi) as Hit.
      simpl in Hit. unfold MaxDepth in Hit.
      depth_fields HD Hi.
      * apply Forall_app. split; [done|]. apply Forall_singleton. simpl.
        rewrite int_add_small by lia. unfold MaxDepth. lia.
      * rewrite int_add_small by lia. unfold MaxDepth. lia.
    + unfold wg_Add in Hstep. destruct (_ <? 0); simpl in Hstep;
        [|rewrite Hp in Hstep]; injection Hstep as <-; [by destruct HD|].
      depth_fields HD Hi.
Qed.

(** ** Claims *)

Lemma claims_won_app u tr l :
  claims_won u (tr ++ l) = (claims_won u tr + claims_won u l)%nat.
Proof. unfold claims_won. by rewrite List.filter_app, length_app. Qed.

Lemma claims_won_none u l :
  forallb (λ e, negb (is_claim e)) l = true → claims_won u l = 0%nat.
Proof.
  unfold claims_won. induction l as [|e l IH]; [done|]. simpl.
  intros [He Hl]%andb_true_iff. destruct e; try done; by apply IH.
Qed.

Lemma existsb_insert_same {A} (f : A → bool) (l : list A) i x y :
  l !! i = Some x → f y = f x → existsb f (<[i:=y]> l) = existsb f l.
Proof.
  revert i. induction l as [|a l IH]; intros [|i]; simpl; try done.
  - intros [= ->] ->. done.
  - intros Hi Hf. by rewrite (IH i).
Qed.

Lemma existsb_insert_false {A} (f : A → bool) (l : list A) i x y :
  l !! i = Some x → f x = false →
  existsb f (<[i:=y]> l) = f y || existsb f l.
Proof.
  revert i. induction l as [|a l IH]; intros [|i]; simpl; try done.
  - intros [= ->] ->. done.
  - intros Hi Hf. rewrite (IH i) by done.
    by destruct (f a), (f y).
Qed.

(** While a worker is in the critical section, it alone can be between the
    check and the set. *)
Lemma setters_holder s i pc u :
  control_inv s → workers s !! i = Some pc → in_cs pc = true →
  setters s u = is_setting u pc.
Proof.
  intros HI Hi Hcs.
  assert (visitedLock s = Some i) as Hl by by apply (inv_lock _ HI _ _ Hi).
  destruct (is_setting u pc) eqn:Hs.
  - apply existsb_exists. exists pc. split; [|done].
    apply list_elem_of_In, list_elem_of_lookup. eauto.
  - destruct (setters s u) eqn:E; [|done].
    apply existsb_exists in E as (pc' & Hin & Hs').
    apply list_elem_of_In, list_elem_of_lookup in Hin as [j Hj].
    assert (visitedLock s = Some j) as Hl'.
    { apply (inv_lock _ HI _ _ Hj). by destruct pc'. }
    assert (j = i) as -> by congruence.
    congruence.
Qed.

Lemma claims_won_snoc u tr e :
  claims_won u (tr ++ [e]) = (claims_won u tr + Nat.b2n (won u e))%nat.
Proof. rewrite claims_won_app. unfold claims_won. simpl. by destruct (won u e). Qed.

Lemma visited_get_insert s s' k u :
  visited s' = <[k := true]> (visited s) →
  visited_get s' u = String.eqb k u || visited_get s u.
Proof.
  intros Hv. unfold visited_get. rewrite Hv.
  destruct (String.eqb_spec k u) as [->|Hne].
  - by rewrite lookup_insert_eq.
  - by rewrite lookup_insert_ne.
Qed.

(** The visited check fails: the URL is in the set. *)
Lemma claim_check_lost i it s :
  control_inv s → claim_inv s → workers s !! i = Some (WCheck it) →
  visited_get s (URL it) = true →
  claim_inv (goto i (WUnlockSkip it) (emit (EvClaim it false) s)).
Proof.
  intros HI [H1 H2 H3] Hi Hv.
  set (s' := goto i (WUnlockSkip it) (emit (EvClaim it false) s)).
  assert (∀ u, setters s' u = setters s u) as Hs.
  { intros u. unfold setters. simpl. by eapply existsb_insert_same. }
  assert (∀ u, claims_won u (trace s') = claims_won u (trace s)) as Hw.
  { intros u. simpl. rewrite claims_won_snoc. simpl. lia. }
  split.
  - intros u. rewrite Hw, Hs. apply H1.
  - intros u. rewrite Hs. apply H2.
  - intros it' b. rewrite Hw. simpl.
    intros [Hin|[[= <- <-]|[]]]%in_app_iff; [by eapply H3|].
    by rewrite H1, Hv.
Qed.

(** The visited check is passed: the URL is not in the set, and the worker
    is about to put it there. *)
Lemma claim_check_won i it s :
  control_inv s → claim_inv s → workers s !! i = Some (WCheck it) →
  visited_get s (URL it) = false →
  control_inv (goto i (WSet it) (emit (EvClaim it true) s)) →
  claim_inv (goto i (WSet it) (emit (EvClaim it true) s)).
Proof.
  intros HI [H1 H2 H3] Hi Hv HI'.
  set (s' := goto i (WSet it) (emit (EvClaim it true) s)) in *.
  assert (∀ u, setters s u = false) as Hs.
  { intros u. by rewrite (setters_holder s i (WCheck it)). }
  assert (∀ u, setters s' u = String.eqb (URL it) u) as Hs'.
  { intros u. rewrite (setters_holder s' i (WSet it)); try done.
    unfold s'. rewrite lookup_goto by (simpl; eauto). by case_decide. }
  assert (∀ u, claims_won u (trace s') =
               (claims_won u (trace s) + Nat.b2n (String.eqb (URL it) u))%nat) as Hw.
  { intros u. simpl. by rewrite claims_won_snoc. }
  assert (∀ u, claims_won u (trace s) = Nat.b2n (visited_get s u)) as Hold.
  { intros u. by rewrite H1, Hs, orb_false_r. }
  split.
  - intros u. rewrite Hw, Hs', Hold.
    change (visited_get s' u) with (visited_get s u).
    destruct (String.eqb_spec (URL it) u) as [<-|_].
    + by rewrite Hv.
    + rewrite orb_false_r. simpl. lia.
  - intros u. rewrite Hs'. intros <-%String.eqb_eq. exact Hv.
  - intros it' b. rewrite Hw. simpl.
    intros [Hin|[[= <- <-]|[]]]%in_app_iff.
    + apply H3 in Hin. rewrite Hin.
      destruct (String.eqb_spec (URL it) (URL it')) as [E|_]; [|done].
      rewrite <- E, Hold, Hv in Hin. done.
    + by rewrite Hold, Hv, String.eqb_refl.
Qed.

(** The set: the URL enters the visited set. *)
Lemma claim_set i it s :
  control_inv s → claim_inv s → workers s !! i = Some (WSet it) →
  control_inv (goto i (WUnlock it)
                 (set_visited (<[URL it := true]> (visited s)) s)) →
  claim_inv (goto i (WUnlock it)
               (set_visited (<[URL it := true]> (visited s)) s)).
Proof.
  intros HI [H1 H2 H3] Hi HI'.
  set (s' := goto i (WUnlock it) _) in *.
  assert (∀ u, setters s u = String.eqb (URL it) u) as Hs.
  { intros u. by rewrite (setters_holder s i (WSet it)). }
  assert (∀ u, setters s' u = false) as Hs'.
  { intros u. rewrite (setters_holder s' i (WUnlock it)); try done.
    unfold s'. rewrite lookup_goto by (simpl; eauto). by case_decide. }
  assert (∀ u, visited_get s' u = String.eqb (URL it) u || visited_get s u) as Hg.
  { intros u. by apply visited_get_insert. }
  split.
  - intros u. rewrite Hs', Hg, orb_false_r.
    change (trace s') with (trace s). rewrite H1, Hs. by rewrite orb_comm.
  - intros u. by rewrite Hs'.
  - intros it' b. change (trace s') with (trace s). apply H3.
Qed.

Lemma claim_init w : claim_inv (NewCrawler w).
Proof. by split. Qed.

(** A step that leaves the visited set and the workers between check and
    set as they are, and records no visited check. *)
Lemma claim_frame s s' l :
  claim_inv s → visited s' = visited s →
  (∀ u, setters s' u = setters s u) →
  trace s' = trace s ++ l → forallb (λ e, negb (is_claim e)) l = true →
  claim_inv s'.
Proof.
  intros [H1 H2 H3] Hv Hs Ht Hl.
  assert (∀ u, claims_won u (trace s') = claims_won u (trace s)) as Hw.
  { intros u. rewrite Ht, claims_won_app, (claims_won_none u l) by done. lia. }
  assert (∀ u, visited_get s' u = visited_get s u) as Hg.
  { intros u. unfold visited_get. by rewrite Hv. }
  split.
  - intros u. by rewrite Hw, Hg, Hs.
  - intros u. rewrite Hs, Hg. apply H2.
  - intros it b. rewrite Hw, Ht.
    intros [Hin|Hin]%in_app_iff; [by eapply H3|].
    rewrite forallb_forall in Hl. apply Hl in Hin. discriminate Hin.
Qed.

Ltac claim_frame_tac HC Hi :=
  eapply (claim_frame _ _ _ HC);
  [ reflexivity
  | intros ?; unfold setters; simpl;
    first [ reflexivity | by eapply existsb_insert_same ]
  | simpl; first [ reflexivity | symmetry; apply app_nil_r ]
  | reflexivity ].

Lemma claim_step env seed t s s' :
  control_inv s → claim_inv s → step env seed t s = Some s' → claim_inv s'.
Proof.
  intros HI HC Hstep.
  assert (control_inv s') as HI' by by eapply control_step.
  unfold step in Hstep.
  destruct (panicked s) eqn:Hp; [done|]. destruct t as [|i].
  - unfold main_step in Hstep.
    destruct (main_pc s) as [i|i|i| | | |] eqn:Hpc; try done.
    + destruct (i <? MaxWorkers); injection Hstep as <-; claim_frame_tac HC Hpc.
    + unfold wg_Add in Hstep. destruct (_ <? 0); simpl in Hstep;
        [|rewrite Hp in Hstep]; injection Hstep as <-; claim_frame_tac HC Hpc.
    + injection Hstep as <-. eapply (claim_frame _ _ [] HC); try done.
      * intros u. unfold setters. simpl. rewrite existsb_app. simpl.
        by rewrite !orb_false_r.
      * simpl. by rewrite app_nil_r.
    + unfold chan_send in Hstep. destruct (closed s).
      { injection Hstep as <-. claim_frame_tac HC Hpc. }
      destruct (_ <? _)%nat; [|done]. simpl in Hstep. rewrite Hp in Hstep.
      injection Hstep as <-. claim_frame_tac HC Hpc.
    + destruct (wg s =? 0); [|done]. injection Hstep as <-. claim_frame_tac HC Hpc.
    + destruct (closed s); injection Hstep as <-; claim_frame_tac HC Hpc.
  - destruct (workers s !! i) as [pc|] eqn:Hi; [|done].
    destruct pc as [|it|it|it|it|it|it|it|it [|img images] links
                   |it [|link links]| |]; unfold worker_step in Hstep; try done.
    + destruct (urlChan s) as [|imgURL rest] eqn:Hq.
      * destruct (closed s); [|done]. injection Hstep as <-. claim_frame_tac HC Hi.
      * injection Hstep as <-. claim_frame_tac HC Hi.
    + destruct (Depth it >? MaxDepth) eqn:E; injection Hstep as <-;
        claim_frame_tac HC Hi.
    + destruct (visitedLock s); [done|]. injection Hstep as <-. claim_frame_tac HC Hi.
    + (* the visited check *)
      destruct (visited_get s (URL it)) eqn:Hv; injection Hstep as <-.
      * by apply claim_check_lost.
      * by apply claim_check_won.
    + destruct (visitedLock s); injection Hstep as <-; claim_frame_tac HC Hi.
    + (* the set *)
      injection Hstep as <-. by apply claim_set.
    + destruct (visitedLock s); injection Hstep as <-; claim_frame_tac HC Hi.
    + destruct (client_Get _ _ _) as [[resp|err] w].
      * destruct (parseHTML _ _ _ _) as [links images]. injection Hstep as <-.
        claim_frame_tac HC Hi.
      * injection Hstep as <-. claim_frame_tac HC Hi.
    + injection Hstep as <-. claim_frame_tac HC Hi.
    + destruct (downloadImage _ _ _) as [[err|] w]; injection Hstep as <-;
        claim_frame_tac HC Hi.
    + injection Hstep as <-. claim_frame_tac HC Hi.
    + unfold chan_send in Hstep. destruct (closed s).
      { simpl in Hstep. injection Hstep as <-. claim_frame_tac HC Hi. }
      destruct (_ <? _)%nat; [|done]. simpl in Hstep. rewrite Hp in Hstep.
      injection Hstep as <-. claim_frame_tac HC Hi.
    + unfold wg_Add in Hstep. destruct (_ <? 0); simpl in Hstep;
        [|rewrite Hp in Hstep]; injection Hstep as <-; claim_frame_tac HC Hi.
Qed.

(** ** Reachable states *)

Lemma reachable_inv env seed w sched :
  let s := exec env seed sched (NewCrawler w) in
  control_inv s ∧ depth_inv s ∧ claim_inv s.
Proof.
  apply (exec_invariant env seed (λ s, control_inv s ∧ depth_inv s ∧ claim_inv s)).
  - intros t s s' (HI & HD & HC) Hstep. split; [|split].
    + by eapply control_step.
    + by eapply depth_step.
    + by eapply claim_step.
  - split; [|split]; [apply control_init | apply depth_init | apply claim_init].
Qed.

Lemma exec_inv env seed sched s :
  control_inv s ∧ depth_inv s →
  control_inv (exec env seed sched s) ∧ depth_inv (exec env seed sched s).
Proof.
  apply (exec_invariant env seed (λ s, control_inv s ∧ depth_inv s)).
  intros t s0 s' (HI & HD) Hstep. split; [by eapply control_step | by eapply depth_step].
Qed.

(** A step leaves the visited set as it is or adds a URL to it. *)
Ltac crack H :=
  repeat
    (match type of H with
     | context [if ?b then _ else _] =>
         lazymatch b with
         | context [if _ then _ else _] => fail
         | _ => destruct b
         end
     | context [match visitedLock ?s with Some _ => _ | None => _ end] =>
         destruct (visitedLock s)
     | context [match urlChan ?s with [] => _ | _ :: _ => _ end] =>
         destruct (urlChan s)
     | context [client_Get ?e ?u ?w] => destruct (client_Get e u w) as [[?|?] ?]
     | context [parseHTML ?e ?b ?u ?d] => destruct (parseHTML e b u d) as [? ?]
     | context [downloadImage ?e ?u ?w] =>
         destruct (downloadImage e u w) as [[?|] ?]
     end; cbn in H).

Lemma step_visited env seed t s s' :
  step env seed t s = Some s' →
  visited s' = visited s ∨ ∃ u, visited s' = <[u := true]> (visited s).
Proof.
  intros Hstep. unfold step in Hstep.
  destruct (panicked s) eqn:Hp; [done|]. destruct t as [|i].
  - unfold main_step in Hstep. destruct (main_pc s); try done.
    all: unfold chan_send, wg_Add in Hstep; cbn in Hstep; crack Hstep.
    all: try done; injection Hstep as <-; by left.
  - destruct (workers s !! i) as [pc|] eqn:Hi; [|done].
    destruct pc as [|it|it|it|it|it|it|it|it [|img images] links
                   |it [|link links]| |]; unfold worker_step in Hstep; try done.
    6: { injection Hstep as <-. right. by exists (URL it). }
    all: unfold chan_send, wg_Add in Hstep; cbn in Hstep; crack Hstep.
    all: try done; injection Hstep as <-; by left.
Qed.

Lemma step_visited_get env seed t s s' u :
  step env seed t s = Some s' →
  visited_get s u = true → visited_get s' u = true.
Proof.
  intros [Hv|[k Hv]]%step_visited Hu.
  - unfold visited_get in *. by rewrite Hv.
  - rewrite (visited_get_insert s s' k u Hv), Hu. apply orb_true_r.
Qed.

Lemma exec_visited_get env seed sched s u :
  visited_get s u = true → visited_get (exec env seed sched s) u = true.
Proof.
  apply (exec_invariant env seed (λ s, visited_get s u = true)).
  intros t s0 s' Hu Hstep. by eapply step_visited_get.
Qed.

(** ** One worker at a time *)

Lemma step_worker env seed i pc s :
  panicked s = false → workers s !! i = Some pc →
  step env seed (Worker i) s = worker_step env i pc s.
Proof. intros Hp Hi. unfold step. by rewrite Hp, Hi. Qed.

Lemma exec_replicate_S env seed t n s :
  exec env seed (replicate (S n) t) s =
  exec env seed (replicate n t) (default s (step env seed t s)).
Proof. reflexivity. Qed.

Lemma downloadImage_now env img w :
  (now w < now (downloadImage env img w).2)%nat.
Proof.
  io_unfold.
  destruct (http_Get env (now w) img) as [resp|]; simpl; [|lia].
  destruct (os_MkdirAll _ _ _); simpl; [lia|].
  destruct (os_Create _ _ _); simpl; [lia|].
  destruct (disk_fault _ _ _) as [[n e]|]; simpl.
  - destruct (n <? _)%nat; simpl; [lia|]. destruct (BodyErr resp); simpl; lia.
  - destruct (BodyErr resp); simpl; lia.
Qed.

(** The step of the loop on images: [downloadImage] is called on the next
    image; an error is printed; the loop goes on with the other images. *)
Lemma step_download env seed i it img images links s :
  panicked s = false →
  workers s !! i = Some (WDownload it (img :: images) links) →
  ∃ s', step env seed (Worker i) s = Some s' ∧
    workers s' !! i = Some (WDownload it images links) ∧
    trace s' = trace s ++ [EvDownload img] ∧
    visited s' = visited s ∧ urlChan s' = urlChan s ∧
    panicked s' = false ∧
    (now (world s) < now (world s'))%nat ∧
    stdout (world s') =
      stdout (downloadImage env img (world s)).2 ++
      match (downloadImage env img (world s)).1 with
      | Some err => ["Error downloading " +:+ img +:+ ": " +:+ err +:+ nl]
      | None => []
      end.
Proof.
  intros Hp Hi. rewrite (step_worker _ _ _ _ _ Hp Hi). unfold worker_step.
  pose proof (downloadImage_now env img (world s)) as Hnow.
  destruct (downloadImage env img (world s)) as [[err|] w'] eqn:E; simpl in *.
  - eexists. split; [reflexivity|]. rewrite lookup_goto by (simpl; eauto).
    case_decide; [|done]. by repeat split.
  - eexists. split; [reflexivity|]. rewrite lookup_goto by (simpl; eauto).
    case_decide; [|done]. repeat split; try done. simpl. by rewrite app_nil_r.
Qed.

(** The loop on images runs to its end, whatever the downloads return. *)
Lemma download_loop env seed i it links images :
  ∀ s, panicked s = false →
  workers s !! i = Some (WDownload it images links) →
  let s' := exec env seed (replicate (length images) (Worker i)) s in
  workers s' !! i = Some (WDownload it [] links) ∧
  trace s' = trace s ++ map EvDownload images ∧
  visited s' = visited s ∧ urlChan s' = urlChan s ∧ panicked s' = false ∧
  (now (world s) + length images ≤ now (world s'))%nat.
Proof.
  induction images as [|img images IH]; intros s Hp Hi.
  - simpl. rewrite app_nil_r. repeat split; try done. lia.
  - destruct (step_download env seed i it img images links s Hp Hi)
      as (s1 & Hstep & Hi1 & Ht1 & Hv1 & Hc1 & Hp1 & Hn1 & _).
    cbn [length]. rewrite exec_replicate_S, Hstep. simpl default.
    destruct (IH s1 Hp1 Hi1) as (Hi2 & Ht2 & Hv2 & Hc2 & Hp2 & Hn2).
    repeat split; try congruence.
    + rewrite Ht2, Ht1, <- app_assoc. done.
    + simpl. lia.
Qed.

Lemma step_download_end env seed i it links s :
  panicked s = false → workers s !! i = Some (WDownload it [] links) →
  step env seed (Worker i) s = Some (goto i (WSend it links) s).
Proof. intros Hp Hi. by rewrite (step_worker _ _ _ _ _ Hp Hi). Qed.

Lemma client_Get_eq env url w :
  client_Get env url w =
  (http_Get env (now w) url,
   mkWorld (S (now w)) (files w) (dirs w) (stdout w)).
Proof. reflexivity. Qed.

(** The step of the fetch, when the fetch fails. *)
Lemma step_get_err env seed i it err s :
  panicked s = false → workers s !! i = Some (WGet it) →
  http_Get env (now (world s)) (URL it) = Err err →
  step env seed (Worker i) s =
  Some (goto i WRange
          (set_world
             (mkWorld (S (now (world s))) (files (world s)) (dirs (world s))
                (stdout (world s) ++
                 ["Error fetching " +:+ URL it +:+ ": " +:+ err +:+ nl]))
             (emit (EvFetchPage it) s))).
Proof.
  intros Hp Hi Hget. rewrite (step_worker _ _ _ _ _ Hp Hi). unfold worker_step.
  rewrite client_Get_eq, Hget. reflexivity.
Qed.

(** The step of the fetch, when the fetch succeeds. *)
Lemma step_get_ok env seed i it resp s :
  panicked s = false → workers s !! i = Some (WGet it) →
  http_Get env (now (world s)) (URL it) = Ok resp →
  step env seed (Worker i) s =
  Some (goto i
          (WDownload it (parseHTML env (Body resp) (URL it) (Depth it)).2
             (parseHTML env (Body resp) (URL it) (Depth it)).1)
          (emit (EvFetchPage it)
             (set_world
                (mkWorld (S (now (world s))) (files (world s))
                   (dirs (world s)) (stdout (world s))) s))).
Proof.
  intros Hp Hi Hget. rewrite (step_worker _ _ _ _ _ Hp Hi). unfold worker_step.
  rewrite client_Get_eq, Hget.
  by destruct (parseHTML env (Body resp) (URL it) (Depth it)).
Qed.



(** * The claims *)

(** C1 (the code does not do what the claim says): [Start] never returns.
    In every state that an interleaving of the goroutines reaches, for
    every site, seed and initial world, the main goroutine is neither at
    [close(c.urlChan)] nor past it, the channel is open, and no worker has
    left its loop. The counter of the wait group is 10 when [c.wg.Wait()]
    is reached; only a worker that returns decrements it; a worker returns
    only when the channel is closed; the channel is closed after the
    wait. *)
Theorem Start_never_returns env startURL w sched :
  let s := exec env startURL sched (NewCrawler w) in
  main_pc s ≠ SReturned ∧ main_pc s ≠ SClose ∧ closed s = false ∧
  panicked s = false ∧ Forall (λ pc, exited pc = false) (workers s).
Proof.
  intros s. destruct (reachable_inv env startURL w sched) as (HI & _ & _).
  fold s in HI. pose proof (inv_main _ HI) as Hm. unfold main_ok in Hm.
  repeat split.
  - intros E. by rewrite E in Hm.
  - intros E. by rewrite E in Hm.
  - apply (inv_open _ HI).
  - apply (inv_run _ HI).
  - apply Forall_lookup. intros i pc. apply (inv_alive _ HI).
Qed.

(** The run of C1 on a seed page without links and images: once worker 0
    has dealt with the seed, [Start] is at [c.wg.Wait()] with a counter of
    10, the ten workers wait on the empty channel, and no goroutine can
    take a step. *)
Example Start_deadlock :
  let s := exec site "https://x/4" (solo 9) (NewCrawler empty_world) in
  main_pc s = SWait ∧ wg s = 10 ∧ urlChan s = [] ∧
  workers s = replicate 10 WRange ∧
  map_to_list (visited s) = [("https://x/4"%string, true)] ∧
  files (world s) = ∅ ∧
  ∀ t, step site "https://x/4" t s = None.
Proof.
  cbv zeta.
  split; [vm_compute; reflexivity|].
  split; [vm_compute; reflexivity|].
  split; [vm_compute; reflexivity|].
  split; [vm_compute; reflexivity|].
  split; [vm_compute; reflexivity|].
  split; [vm_compute; reflexivity|].
  intros [|i]; [vm_compute; reflexivity|].
  do 10 (destruct i as [|i]; [vm_compute; reflexivity|]).
  vm_compute. reflexivity.
Qed.

(** C2: in every reachable state, a URL has passed the visited check at
    most once; as soon as a check of the URL has been decided, passed or
    failed, or the URL is in the set, it has passed exactly once. Two
    workers are never together between [Lock] and [Unlock]; the worker
    about to set a URL holds the lock and the URL is still absent; a URL
    in the set stays in it for the rest of the crawl. *)
Theorem visited_claimed_once env startURL w sched :
  let s := exec env startURL sched (NewCrawler w) in
  (∀ u, (claims_won u (trace s) ≤ 1)%nat) ∧
  (∀ it b, In (EvClaim it b) (trace s) →
           claims_won (URL it) (trace s) = 1%nat) ∧
  (∀ u, visited_get s u = true → claims_won u (trace s) = 1%nat) ∧
  (∀ i j pci pcj,
     workers s !! i = Some pci → workers s !! j = Some pcj →
     in_cs pci = true → in_cs pcj = true → i = j) ∧
  (∀ i it, workers s !! i = Some (WSet it) →
           visitedLock s = Some i ∧ visited_get s (URL it) = false) ∧
  (∀ sched' u, visited_get s u = true →
               visited_get (exec env startURL sched' s) u = true).
Proof.
  intros s. destruct (reachable_inv env startURL w sched) as (HI & _ & HC).
  fold s in HI, HC.
  split; [|split; [|split; [|split; [|split]]]].
  - intros u. rewrite (inv_won _ HC). destruct (_ || _); simpl; lia.
  - apply (inv_checked _ HC).
  - intros u Hu. by rewrite (inv_won _ HC), Hu.
  - intros i j pci pcj Hi Hj Hci Hcj.
    apply (inv_lock _ HI _ _ Hi) in Hci. apply (inv_lock _ HI _ _ Hj) in Hcj.
    congruence.
  - intros i it Hi. split.
    + by apply (inv_lock _ HI _ _ Hi).
    + apply (inv_fresh _ HC).
      rewrite (setters_holder s i (WSet it)); try done.
      simpl. apply String.eqb_refl.
  - intros sched' u. apply exec_visited_get.
Qed.

Lemma visited_claimed_once_witness :
  claims_won "https://x/1"
    (trace (exec site "https://x/1" (solo 36) (NewCrawler empty_world)))
  = 1%nat.
Proof.
  apply (proj1 (proj2 (visited_claimed_once site "https://x/1" empty_world
                         (solo 36)))
           (mkImageURL "https://x/1" 3) false).
  vm_compute. tauto.
Defined.

(** C3: in every reachable state, no item deeper than [MaxDepth] has been
    fetched or checked against the visited set; and the step of a worker
    that tests such an item takes the worker back to the receive, leaving
    the visited set, the lock, the channel, the world and the trace as
    they are. *)
Theorem over_depth_discarded env startURL w sched :
  let s := exec env startURL sched (NewCrawler w) in
  (∀ it, Depth it > MaxDepth →
         ¬ In (EvFetchPage it) (trace s) ∧ ∀ b, ¬ In (EvClaim it b) (trace s)) ∧
  (∀ i it, workers s !! i = Some (WDepth it) → Depth it > MaxDepth →
     ∃ s', step env startURL (Worker i) s = Some s' ∧
       workers s' !! i = Some WRange ∧
       visited s' = visited s ∧ visitedLock s' = visitedLock s ∧
       urlChan s' = urlChan s ∧ world s' = world s ∧ trace s' = trace s).
Proof.
  intros s. destruct (reachable_inv env startURL w sched) as (HI & HD & _).
  fold s in HI, HD. split.
  - intros it Hit.
    pose proof (inv_event_depth _ HD) as He. rewrite Forall_forall in He.
    split; [|intros b]; intros Hin; apply list_elem_of_In, He in Hin;
      simpl in Hin; lia.
  - intros i it Hi Hit. exists (goto i WRange s).
    rewrite (step_worker _ _ _ _ _ (inv_run _ HI) Hi). unfold worker_step.
    destruct (Z.gtb_spec (Depth it) MaxDepth) as [_|?]; [|lia].
    rewrite lookup_goto by eauto. case_decide; [|done]. by repeat split.
Qed.

Lemma over_depth_discarded_witness :
  ∃ s', step site "https://x/1" (Worker 0)
          (exec site "https://x/1" (solo 50) (NewCrawler empty_world))
        = Some s' ∧
    workers s' !! 0%nat = Some WRange ∧
    visited s' = visited (exec site "https://x/1" (solo 50) (NewCrawler empty_world)).
Proof.
  destruct (proj2 (over_depth_discarded site "https://x/1" empty_world (solo 50))
              0%nat (mkImageURL "https://x/4" 4))
    as (s' & Hs & Hw & Hv & _).
  - vm_compute. reflexivity.
  - vm_compute. reflexivity.
  - exists s'. by repeat split.
Defined.





(** C5: [isImageURL] accepts a string exactly when the string ends with
    one of [.jpg], [.jpeg], [.png], [.gif], [.bmp], in these very
    letters; and the images that [parseHTML] returns are the values of
    the [src] attributes of the [<img>] tags that [isImageURL] accepts,
    in document order: a value is returned exactly when it is such a
    value and is accepted. *)
Theorem isImageURL_classifier :
  (∀ s, isImageURL s = true ↔
        ∃ suf, In suf image_suffixes ∧ has_suffix s suf) ∧
  (∀ env body baseURL depth,
     (parseHTML env body baseURL depth).2 = page_images (html_tokens env body)) ∧
  (∀ toks v,
     In v (page_images toks) ↔
     ∃ token a, In token (before_error toks) ∧ is_open_tag "img" token = true ∧
       In a (Attr token) ∧ Key a = "src"%string ∧ Val a = v ∧
       isImageURL v = true).
Proof.
  split; [exact isImageURL_suffix | split].
  - intros env body baseURL depth. unfold parseHTML.
    by rewrite parse_loop_spec.
  - intros toks v. unfold page_images. rewrite in_flat_map. split.
    + intros (token & Htok & Hv).
      destruct (is_open_tag "img" token) eqn:Himg; [|done].
      apply in_flat_map in Hv as (v' & Hv' & Hv).
      destruct (isImageURL v') eqn:Hacc; [|done].
      destruct Hv as [->|[]].
      unfold attr_values in Hv'. apply in_flat_map in Hv' as (a & Ha & Hv').
      destruct (String.eqb_spec (Key a) "src") as [Hk|]; [|done].
      destruct Hv' as [<-|[]]. by exists token, a.
    + intros (token & a & Htok & Himg & Ha & Hk & <- & Hacc).
      exists token. split; [done|]. rewrite Himg.
      apply in_flat_map. exists (Val a). split; [|rewrite Hacc; by left].
      unfold attr_values. apply in_flat_map. exists a. split; [done|].
      rewrite Hk. by left.
Qed.

(** C6: the links that [parseHTML] returns are the values of the [href]
    attributes of the [<a>] tags ahead of the first error token, in
    document order and as they are written, whatever the base URL and
    the depth; at an error token the function returns what the tokens
    before it have given. *)
Theorem parseHTML_links env body baseURL depth :
  (parseHTML env body baseURL depth).1 = page_links (html_tokens env body) ∧
  (∀ baseURL' depth',
     parseHTML env body baseURL' depth' = parseHTML env body baseURL depth) ∧
  (∀ pre token post,
     html_tokens env body = pre ++ token :: post →
     Type_ token = ErrorToken →
     parseHTML env body baseURL depth = parse_loop pre [] []) ∧
  (∀ toks v,
     In v (page_links toks) ↔
     ∃ token a, In token (before_error toks) ∧ is_open_tag "a" token = true ∧
       In a (Attr token) ∧ Key a = "href"%string ∧ Val a = v).
Proof.
  repeat split.
  - unfold parseHTML. by rewrite parse_loop_spec.
  - intros pre token post Htoks Herr. unfold parseHTML.
    rewrite Htoks. by apply parse_loop_error.
  - unfold page_links. rewrite in_flat_map.
    intros (token & Htok & Hv).
    destruct (is_open_tag "a" token) eqn:Ha; [|done].
    unfold attr_values in Hv. apply in_flat_map in Hv as (a & Hin & Hv).
    destruct (String.eqb_spec (Key a) "href") as [Hk|]; [|done].
    destruct Hv as [<-|[]]. by exists token, a.
  - intros (token & a & Htok & Htag & Ha & Hk & <-).
    unfold page_links. apply in_flat_map. exists token. split; [done|].
    rewrite Htag. unfold attr_values. apply in_flat_map. exists a.
    split; [done|]. rewrite Hk. by left.
Qed.

Lemma parseHTML_links_witness :
  parseHTML site_truncated [] "https://x/" 1 = (["/a"%string], []).
Proof.
  rewrite (proj1 (proj2 (proj2 (parseHTML_links site_truncated []
                                  "https://x/" 1)))
             [tagA "/a"] (mkToken ErrorToken EmptyString []) [tagA "/b"]
             eq_refl eq_refl).
  reflexivity.
Defined.

(** C7, as the code has it: when the fetch of an image URL, the creation
    of the directory, the creation of the file and the copy all succeed,
    [downloadImage] returns [nil]; the file named by the text after the
    last [/] of the URL string (query and fragment included) inside
    [images] then holds the bytes of the response and nothing else,
    whatever it held before; the directory exists; the other files are as
    they were; one line is printed. *)
Theorem downloadImage_roundtrip env w imgURL resp :
  isImageURL imgURL = true →
  http_Get env (now w) imgURL = Ok resp →
  BodyErr resp = None →
  os_MkdirAll env (1 + now w)%nat DownloadDir = None →
  os_Create env (2 + now w)%nat (image_path imgURL) = None →
  copy_ok env (3 + now w)%nat (image_path imgURL) (Body resp) →
  downloadImage env imgURL w =
  (None,
   mkWorld (4 + now w)%nat (<[image_path imgURL := Body resp]> (files w))
     ({[DownloadDir]} ∪ dirs w)
     (stdout w ++ ["Downloaded: " +:+ image_path imgURL +:+ nl])).
Proof.
  intros Himg Hget Herr Hmk Hcr Hcp.
  destruct (image_filename imgURL Himg) as [_ Hpath].
  rewrite <- Hpath in *. by apply downloadImage_ok.
Qed.

Lemma downloadImage_roundtrip_witness :
  downloadImage site "https://x/a.png" world_with_image =
  (None,
   mkWorld 4 (<["images/a.png"%string := bytes "PNG-DATA"]>
                (files world_with_image))
     ({[DownloadDir]} ∪ dirs world_with_image)
     ["Downloaded: images/a.png" +:+ nl]).
Proof.
  apply (downloadImage_roundtrip site world_with_image "https://x/a.png"
           (mkResponse (bytes "PNG-DATA") None)); try reflexivity.
  intros n e H. discriminate H.
Defined.

(** C7, as the claim has it, fails twice. First, on a site where the
    fetch succeeds and no file can be created, no file is written.
    Second, on the URL [https://x/a.png?x=/b.png], whose final path
    segment is [a.png], the download succeeds and the bytes are in
    [images/b.png], while [images/a.png] does not exist. *)
Lemma roundtrip_as_claimed_fails :
  ¬ roundtrip_as_claimed ∧
  (http_Get site_read_only 0 "https://x/a.png"
   = Ok (mkResponse (bytes "PNG-DATA") None) ∧
   files (downloadImage site_read_only "https://x/a.png" empty_world).2
     !! "images/a.png"%string = None) ∧
  (isImageURL "https://x/a.png?x=/b.png" = true ∧
   url_final_path_segment "https://x/a.png?x=/b.png" = "a.png"%string ∧
   (downloadImage site_query "https://x/a.png?x=/b.png" empty_world).1 = None ∧
   files (downloadImage site_query "https://x/a.png?x=/b.png" empty_world).2
     !! "images/a.png"%string = None ∧
   files (downloadImage site_query "https://x/a.png?x=/b.png" empty_world).2
     !! "images/b.png"%string = Some (bytes "PNG-DATA")).
Proof.
  split; [|split].
  - intros H.
    specialize (H site_query empty_world "https://x/a.png?x=/b.png"
                  (mkResponse (bytes "PNG-DATA") None) eq_refl eq_refl).
    vm_compute in H. discriminate H.
  - split; vm_compute; reflexivity.
  - repeat split; vm_compute; reflexivity.
Qed.



(** C8: in every reachable state, (1) a worker whose fetch of a page fails
    prints the error and is back at the receive after that one step: the
    item is not sent again, the files, the channel and the visited set
    are as they were; (2) a worker whose download of an image fails
    prints the error and goes on with the next image of the same page;
    (3) from any point of the loop on images the worker reaches the loop
    on links with the links of the page, whatever the downloads return;
    (4) the program has not panicked and no worker has left its loop. *)
Theorem errors_stay_local env startURL w sched i :
  let s := exec env startURL sched (NewCrawler w) in
  (∀ it err,
     workers s !! i = Some (WGet it) →
     http_Get env (now (world s)) (URL it) = Err err →
     ∃ s', step env startURL (Worker i) s = Some s' ∧
       workers s' !! i = Some WRange ∧
       stdout (world s') =
         stdout (world s) ++
         ["Error fetching " +:+ URL it +:+ ": " +:+ err +:+ nl] ∧
       files (world s') = files (world s) ∧
       urlChan s' = urlChan s ∧ visited s' = visited s ∧
       panicked s' = false) ∧
  (∀ it img images links err,
     workers s !! i = Some (WDownload it (img :: images) links) →
     (downloadImage env img (world s)).1 = Some err →
     ∃ s', step env startURL (Worker i) s = Some s' ∧
       workers s' !! i = Some (WDownload it images links) ∧
       stdout (world s') =
         stdout (downloadImage env img (world s)).2 ++
         ["Error downloading " +:+ img +:+ ": " +:+ err +:+ nl] ∧
       urlChan s' = urlChan s ∧ visited s' = visited s ∧
       panicked s' = false) ∧
  (∀ it images links,
     workers s !! i = Some (WDownload it images links) →
     let s' :=
       exec env startURL (replicate (length images) (Worker i) ++ [Worker i])
         s in
     workers s' !! i = Some (WSend it links) ∧ panicked s' = false) ∧
  panicked s = false ∧ Forall (λ pc, exited pc = false) (workers s).
Proof.
  intros s. destruct (reachable_inv env startURL w sched) as (HI & _ & _).
  fold s in HI. pose proof (inv_run _ HI) as Hp.
  split; [|split; [|split; [|split]]].
  - intros it err Hi Hget. eexists. split; [by apply step_get_err|].
    rewrite lookup_goto by (simpl; eauto). case_decide; [|done].
    by repeat split.
  - intros it img images links err Hi Herr.
    destruct (step_download env startURL i it img images links s Hp Hi)
      as (s' & Hstep & Hi' & _ & Hv & Hc & Hp' & _ & Hout).
    rewrite Herr in Hout. exists s'. by repeat split.
  - intros it images links Hi s'.
    destruct (download_loop env startURL i it links images s Hp Hi)
      as (Hi1 & _ & _ & _ & Hp1 & _).
    unfold s'. rewrite exec_app.
    set (s1 := exec env startURL (replicate (length images) (Worker i)) s) in *.
    rewrite exec_cons, (step_download_end _ _ _ _ _ _ Hp1 Hi1). simpl default.
    change (exec env startURL [] ?x) with x.
    rewrite lookup_goto by eauto. case_decide; [|done]. by split.
  - exact Hp.
  - apply Forall_lookup. intros j pc. apply (inv_alive _ HI).
Qed.

Lemma errors_stay_local_witness :
  (∃ s', step site "https://x/1" (Worker 0)
           (exec site "https://x/1" (solo 19) (NewCrawler empty_world))
         = Some s' ∧ workers s' !! 0%nat = Some WRange) ∧
  (∃ s', step site "https://x/1" (Worker 0)
           (exec site "https://x/1" (solo 8) (NewCrawler empty_world))
         = Some s' ∧
         workers s' !! 0%nat =
         Some (WDownload (mkImageURL "https://x/1" 1) []
                 ["https://gone/"%string; "https://x/2"%string])).
Proof.
  split.
  - destruct (proj1 (errors_stay_local site "https://x/1" empty_world (solo 19)
                       0%nat)
                (mkImageURL "https://gone/" 2) "no such host"%string)
      as (s' & Hs & Hw & _).
    + vm_compute. reflexivity.
    + vm_compute. reflexivity.
    + exists s'. by split.
  - destruct (proj1 (proj2 (errors_stay_local site "https://x/1" empty_world
                              (solo 8) 0%nat))
                (mkImageURL "https://x/1" 1) "https://x/broken.png"%string []
                ["https://gone/"%string; "https://x/2"%string]
                "no such host"%string)
      as (s' & Hs & Hw & _).
    + vm_compute. reflexivity.
    + vm_compute. reflexivity.
    + exists s'. by split.
Defined.

(** C9: whatever the depth of the item and whatever the visited set holds,
    a worker whose fetch of a page succeeds calls [downloadImage] once for
    each image that [parseHTML] returns for the page, in order and with
    repetitions; these steps leave the visited set as it is, and each
    call makes a call to the environment. *)
Theorem images_downloaded_unfiltered env startURL s i it resp :
  panicked s = false →
  workers s !! i = Some (WGet it) →
  http_Get env (now (world s)) (URL it) = Ok resp →
  let images := (parseHTML env (Body resp) (URL it) (Depth it)).2 in
  let links := (parseHTML env (Body resp) (URL it) (Depth it)).1 in
  let s' :=
    exec env startURL (Worker i :: replicate (length images) (Worker i)) s in
  trace s' = trace s ++ EvFetchPage it :: map EvDownload images ∧
  workers s' !! i = Some (WDownload it [] links) ∧
  visited s' = visited s ∧
  (now (world s) + 1 + length images ≤ now (world s'))%nat.
Proof.
  intros Hp Hi Hget images links s'.
  unfold s'. rewrite exec_cons, (step_get_ok _ _ _ _ _ _ Hp Hi Hget).
  simpl default. fold images links.
  set (s1 := goto i (WDownload it images links) _).
  assert (workers s1 !! i = Some (WDownload it images links)) as Hi1.
  { unfold s1. rewrite lookup_goto by (simpl; eauto). by case_decide. }
  assert (panicked s1 = false) as Hp1 by exact Hp.
  destruct (download_loop env startURL i it links images s1 Hp1 Hi1)
    as (Hi2 & Ht2 & Hv2 & _ & _ & Hn2).
  split; [|split; [|split]]; try done.
  - rewrite Ht2. unfold s1. simpl. by rewrite <- app_assoc.
  - change (now (world s1)) with (S (now (world s))) in Hn2. lia.
Qed.

Lemma images_downloaded_unfiltered_witness :
  Depth (mkImageURL "https://x/3" 3) = MaxDepth ∧
  In (EvDownload "https://x/a.png")
     (trace (exec site "https://x/1" (solo 43) (NewCrawler empty_world))) ∧
  trace (exec site "https://x/1" (Worker 0 :: replicate 2 (Worker 0))
           (exec site "https://x/1" (solo 43) (NewCrawler empty_world)))
  = trace (exec site "https://x/1" (solo 43) (NewCrawler empty_world)) ++
    [EvFetchPage (mkImageURL "https://x/3" 3);
     EvDownload "https://x/a.png"; EvDownload "https://x/a.png"].
Proof.
  split; [reflexivity|]. split; [vm_compute; tauto|].
  apply (images_downloaded_unfiltered site "https://x/1"
           (exec site "https://x/1" (solo 43) (NewCrawler empty_world))
           0%nat (mkImageURL "https://x/3" 3)
           (mkResponse (bytes "page3") None)).
  - vm_compute. reflexivity.
  - vm_compute. reflexivity.
  - vm_compute. reflexivity.
Defined.

(** * Further properties *)

(** ** [downloadImage] in every environment *)

(** The four ways in which [downloadImage] ends: at the fetch, at the
    directory, at the creation of the file, or after the copy. *)
Lemma downloadImage_cases env imgURL w :
  let path := Filepath.Join [DownloadDir; getFilenameFromURL imgURL] in
  (∃ e, http_Get env (now w) imgURL = Err e ∧
     downloadImage env imgURL w =
     (Some e, mkWorld (1 + now w)%nat (files w) (dirs w) (stdout w)))
  ∨ (∃ resp e, http_Get env (now w) imgURL = Ok resp ∧
     os_MkdirAll env (1 + now w)%nat DownloadDir = Some e ∧
     downloadImage env imgURL w =
     (Some e, mkWorld (2 + now w)%nat (files w) (dirs w) (stdout w)))
  ∨ (∃ resp e, http_Get env (now w) imgURL = Ok resp ∧
     os_Create env (2 + now w)%nat path = Some e ∧
     downloadImage env imgURL w =
     (Some e,
      mkWorld (3 + now w)%nat (files w) ({[DownloadDir]} ∪ dirs w) (stdout w)))
  ∨ (∃ resp data r, http_Get env (now w) imgURL = Ok resp ∧
     data `prefix_of` Body resp ∧
     (r = None → data = Body resp ∧ BodyErr resp = None) ∧
     downloadImage env imgURL w =
     (r,
      mkWorld (4 + now w)%nat (<[path := data]> (files w))
        ({[DownloadDir]} ∪ dirs w)
        (stdout w ++
         match r with
         | None => ["Downloaded: " +:+ path +:+ nl]
         | Some _ => []
         end))).
Proof.
  intros path. io_unfold. fold path.
  destruct (http_Get env (now w) imgURL) as [resp|e] eqn:Hget; simpl;
    [|left; by exists e].
  right.
  destruct (os_MkdirAll env (S (now w)) DownloadDir) as [e|] eqn:Hmk; simpl;
    [left; by exists resp, e|].
  right.
  destruct (os_Create env (S (S (now w))) path) as [e|] eqn:Hcr; simpl;
    [left; by exists resp, e|].
  right.
  assert (∀ n, take n (Body resp) `prefix_of` Body resp) as Htake.
  { intros n. exists (drop n (Body resp)). by rewrite take_drop. }
  destruct (disk_fault env (S (S (S (now w)))) path) as [[n e]|]; simpl.
  - destruct (n <? length (Body resp))%nat; simpl.
    + exists resp, (take n (Body resp)), (Some e).
      rewrite insert_insert_eq, app_nil_r. by repeat split.
    + destruct (BodyErr resp) as [e'|] eqn:Herr; simpl.
      * exists resp, (Body resp), (Some e').
        rewrite insert_insert_eq, app_nil_r. by repeat split.
      * exists resp, (Body resp), None.
        rewrite insert_insert_eq. by repeat split.
  - destruct (BodyErr resp) as [e'|] eqn:Herr; simpl.
    + exists resp, (Body resp), (Some e').
      rewrite insert_insert_eq, app_nil_r. by repeat split.
    + exists resp, (Body resp), None.
      rewrite insert_insert_eq. by repeat split.
Qed.

Lemma downloadImage_nil_inv env imgURL w w' :
  downloadImage env imgURL w = (None, w') →
  let path := Filepath.Join [DownloadDir; getFilenameFromURL imgURL] in
  ∃ resp,
    http_Get env (now w) imgURL = Ok resp ∧ BodyErr resp = None ∧
    files w' = <[path := Body resp]> (files w) ∧
    DownloadDir ∈ dirs w' ∧
    stdout w' = stdout w ++ ["Downloaded: " +:+ path +:+ nl].
Proof.
  intros Hdl path.
  destruct (downloadImage_cases env imgURL w)
    as [(e & _ & H)|[(resp & e & _ & _ & H)|[(resp & e & _ & _ & H)
       |(resp & data & r & Hget & _ & Hr & H)]]];
    rewrite H in Hdl; try discriminate Hdl.
  injection Hdl as Hnil <-. pose proof (Hr Hnil) as [Hdata Herr]. clear Hr.
  subst r data. exists resp.
  split; [done|]. split; [done|]. split; [done|]. split; [|done].
  simpl. set_solver.
Qed.

(** X1: whenever [downloadImage] returns [nil], the fetch had succeeded and
    the file at [images/<name>] holds exactly the bytes of the response;
    the directory exists; the last line printed is the [Downloaded] line
    of that file. *)
Theorem downloadImage_nil_file env imgURL w w' :
  downloadImage env imgURL w = (None, w') →
  let path := Filepath.Join [DownloadDir; getFilenameFromURL imgURL] in
  ∃ resp,
    http_Get env (now w) imgURL = Ok resp ∧ BodyErr resp = None ∧
    files w' = <[path := Body resp]> (files w) ∧
    DownloadDir ∈ dirs w' ∧
    stdout w' = stdout w ++ ["Downloaded: " +:+ path +:+ nl].
Proof. exact (downloadImage_nil_inv env imgURL w w'). Qed.

Lemma downloadImage_nil_file_witness :
  ∃ resp,
    http_Get site 0 "https://x/a.png" = Ok resp ∧
    files (downloadImage site "https://x/a.png" empty_world).2
    = <["images/a.png"%string := Body resp]> ∅.
Proof.
  destruct (downloadImage_nil_file site "https://x/a.png" empty_world
              (downloadImage site "https://x/a.png" empty_world).2)
    as (resp & Hget & _ & Hf & _).
  - vm_compute. reflexivity.
  - exists resp. split; [exact Hget | exact Hf].
Defined.

Lemma downloadImage_error_inv env imgURL w w' e :
  downloadImage env imgURL w = (Some e, w') →
  let path := Filepath.Join [DownloadDir; getFilenameFromURL imgURL] in
  stdout w' = stdout w ∧
  (files w' = files w ∨
   ∃ resp data,
     http_Get env (now w) imgURL = Ok resp ∧
     data `prefix_of` Body resp ∧ files w' = <[path := data]> (files w)).
Proof.
  intros Hdl path.
  destruct (downloadImage_cases env imgURL w)
    as [(e' & _ & H)|[(resp & e' & _ & _ & H)|[(resp & e' & _ & _ & H)
       |(resp & data & r & Hget & Hpre & _ & H)]]];
    rewrite H in Hdl.
  1-3: injection Hdl as _ <-; split; [done | by left].
  injection Hdl as -> <-. split; [simpl; by rewrite app_nil_r|].
  right. by exists resp, data.
Qed.

(** X2: whenever [downloadImage] returns an error, it prints nothing, and
    the files are as they were or differ in the one file at
    [images/<name>], which then holds a prefix of the bytes of the
    response. *)
Theorem downloadImage_error_effect env imgURL w w' e :
  downloadImage env imgURL w = (Some e, w') →
  let path := Filepath.Join [DownloadDir; getFilenameFromURL imgURL] in
  stdout w' = stdout w ∧
  (files w' = files w ∨
   ∃ resp data,
     http_Get env (now w) imgURL = Ok resp ∧
     data `prefix_of` Body resp ∧ files w' = <[path := data]> (files w)).
Proof. exact (downloadImage_error_inv env imgURL w w' e). Qed.

Lemma downloadImage_error_effect_witness :
  stdout (downloadImage site "https://x/broken.png" world_with_image).2 = [] ∧
  stdout (downloadImage site_disk_full "https://x/a.png" world_with_image).2
  = [].
Proof.
  split.
  - apply (downloadImage_error_effect site "https://x/broken.png"
             world_with_image _ "no such host"). vm_compute. reflexivity.
  - apply (downloadImage_error_effect site_disk_full "https://x/a.png"
             world_with_image _ "no space left on device").
    vm_compute. reflexivity.
Defined.

Lemma downloadImage_touches env imgURL w :
  let path := Filepath.Join [DownloadDir; getFilenameFromURL imgURL] in
  let w' := (downloadImage env imgURL w).2 in
  (∀ p, p ≠ path → files w' !! p = files w !! p) ∧
  dirs w ⊆ dirs w' ∧ dirs w' ⊆ {[DownloadDir]} ∪ dirs w ∧
  (∃ l, stdout w' = stdout w ++ l ∧ (length l ≤ 1)%nat) ∧
  (now w < now w' ≤ now w + 4)%nat.
Proof.
  intros path w'. unfold w'.
  destruct (downloadImage_cases env imgURL w)
    as [(e' & _ & H)|[(resp & e' & _ & _ & H)|[(resp & e' & _ & _ & H)
       |(resp & data & r & Hget & Hpre & _ & H)]]];
    rewrite H; simpl.
  1-3: (split; [done|]; split; [set_solver|]; split; [set_solver|]; split;
        [exists []; split; [by rewrite app_nil_r | simpl; lia] | lia]).
  split.
  { intros p Hp. fold path. rewrite lookup_insert_ne; [done|].
    intros E. by apply Hp. }
  split; [set_solver|]. split; [set_solver|].
  split; [|lia]. eexists. split; [reflexivity|]. destruct r; simpl; lia.
Qed.

(** X3: in every environment [downloadImage] leaves every file but the one
    at [images/<name>] as it was, removes no directory and adds none but
    [images], keeps the lines printed and adds at most one, and makes
    between one and four calls to the environment. *)
Theorem downloadImage_frame env imgURL w :
  let path := Filepath.Join [DownloadDir; getFilenameFromURL imgURL] in
  let w' := (downloadImage env imgURL w).2 in
  (∀ p, p ≠ path → files w' !! p = files w !! p) ∧
  dirs w ⊆ dirs w' ∧ dirs w' ⊆ {[DownloadDir]} ∪ dirs w ∧
  (∃ l, stdout w' = stdout w ++ l ∧ (length l ≤ 1)%nat) ∧
  (now w < now w' ≤ now w + 4)%nat.
Proof. exact (downloadImage_touches env imgURL w). Qed.

(** ** The names of the files *)

Lemma image_suffix_length suf :
  In suf image_suffixes → (4 ≤ String.length suf)%nat.
Proof.
  unfold image_suffixes. simpl.
  intros [<-|[<-|[<-|[<-|[<-|[]]]]]]; simpl; lia.
Qed.

Lemma image_name_shape url :
  isImageURL url = true →
  let name := getFilenameFromURL url in
  has_suffix url name ∧ has_sep name = false ∧
  (4 ≤ String.length name)%nat ∧ isImageURL name = true ∧
  Filepath.Join [DownloadDir; name] = "images/" +:+ name.
Proof.
  intros (suf & Hsuf & p & ->)%isImageURL_suffix name.
  destruct (image_suffix_shape suf Hsuf) as (Hs1 & Hs2 & Hs3).
  pose proof (image_suffix_length suf Hsuf) as Hs4.
  destruct (split_last_sep p) as (pre & stem & -> & Hpre & Hstem).
  assert (has_sep (stem +:+ suf) = false) as Hsep.
  { by rewrite has_sep_app, Hstem, Hs1. }
  assert (name = stem +:+ suf) as ->.
  { unfold name, getFilenameFromURL. rewrite string_app_assoc.
    apply Base_segment; [done | done | by apply ends_nonsep_app]. }
  split; [exists pre; by rewrite string_app_assoc|].
  split; [done|].
  split; [rewrite string_length_app; lia|].
  split; [apply isImageURL_suffix; exists suf; split; [done | by exists stem]|].
  apply Join_segment; [done|]. rewrite string_length_app. lia.
Qed.

(** X4: for every URL that [isImageURL] accepts, the name that
    [getFilenameFromURL] returns is the end of the URL, has no separator,
    has at least four characters and is itself accepted; and the file of
    the download is that name directly inside [images]: no accepted URL
    makes [downloadImage] write elsewhere. *)
Theorem image_file_inside_images url :
  isImageURL url = true →
  let name := getFilenameFromURL url in
  has_suffix url name ∧ has_sep name = false ∧
  (4 ≤ String.length name)%nat ∧ isImageURL name = true ∧
  Filepath.Join [DownloadDir; name] = "images/" +:+ name.
Proof. exact (image_name_shape url). Qed.

Lemma image_file_inside_images_witness :
  Filepath.Join
    [DownloadDir; getFilenameFromURL "https://x/../../etc/passwd.png"]
  = "images/passwd.png"%string.
Proof.
  destruct (image_file_inside_images "https://x/../../etc/passwd.png" eq_refl)
    as (_ & _ & _ & _ & H).
  exact H.
Defined.

(** X5: two downloads that return [nil], one after the other, of URLs to
    which [getFilenameFromURL] gives the same name: the file holds the
    bytes of the second response, and the files are what the second
    download alone would have left. *)
Theorem same_name_overwrites env u1 u2 w w1 w2 :
  getFilenameFromURL u1 = getFilenameFromURL u2 →
  downloadImage env u1 w = (None, w1) →
  downloadImage env u2 w1 = (None, w2) →
  let path := Filepath.Join [DownloadDir; getFilenameFromURL u1] in
  ∃ resp2,
    http_Get env (now w1) u2 = Ok resp2 ∧
    files w2 !! path = Some (Body resp2) ∧
    files w2 = <[path := Body resp2]> (files w).
Proof.
  intros Hname H1 H2 path.
  destruct (downloadImage_nil_inv env u1 w w1 H1) as (r1 & _ & _ & Hf1 & _).
  destruct (downloadImage_nil_inv env u2 w1 w2 H2) as (r2 & Hg2 & _ & Hf2 & _).
  rewrite <- Hname in Hf2. fold path in Hf1, Hf2.
  exists r2. split; [done|]. rewrite Hf2, Hf1.
  split; [by rewrite lookup_insert_eq | by rewrite insert_insert_eq].
Qed.

Lemma same_name_overwrites_witness :
  files (downloadImage site_two_hosts "https://y/img/photo.jpg"
           (downloadImage site_two_hosts "https://x/photo.jpg" empty_world).2).2
    !! "images/photo.jpg"%string
  = Some (bytes "second").
Proof.
  destruct (same_name_overwrites site_two_hosts
              "https://x/photo.jpg" "https://y/img/photo.jpg" empty_world
              (downloadImage site_two_hosts "https://x/photo.jpg" empty_world).2
              (downloadImage site_two_hosts "https://y/img/photo.jpg"
                 (downloadImage site_two_hosts "https://x/photo.jpg"
                    empty_world).2).2)
    as (resp2 & Hget & Hf & _).
  - vm_compute. reflexivity.
  - vm_compute. reflexivity.
  - vm_compute. reflexivity.
  - etransitivity; [exact Hf|]. f_equal.
    assert (Ok resp2 = Ok (mkResponse (bytes "second") None)) as E.
    { rewrite <- Hget. vm_compute. reflexivity. }
    by injection E as ->.
Defined.

(** X6: the step of a worker on an image of a page prints exactly one
    line: the [Downloaded] line of the file when [downloadImage] returns
    [nil], and else the [Error downloading] line with the URL of the
    image and the error. *)
Theorem one_line_per_image env startURL s i it img images links :
  panicked s = false →
  workers s !! i = Some (WDownload it (img :: images) links) →
  ∃ s' line,
    step env startURL (Worker i) s = Some s' ∧
    stdout (world s') = stdout (world s) ++ [line] ∧
    match (downloadImage env img (world s)).1 with
    | None =>
        line = "Downloaded: " +:+
               Filepath.Join [DownloadDir; getFilenameFromURL img] +:+ nl
    | Some err => line = "Error downloading " +:+ img +:+ ": " +:+ err +:+ nl
    end.
Proof.
  intros Hp Hi.
  destruct (step_download env startURL i it img images links s Hp Hi)
    as (s' & Hstep & _ & _ & _ & _ & _ & _ & Hout).
  exists s'.
  destruct (downloadImage env img (world s)) as [[err|] w'] eqn:Hdl;
    simpl in Hout |- *.
  - destruct (downloadImage_error_inv env img (world s) w' err Hdl)
      as [Hsame _].
    eexists. split; [done|]. split; [|reflexivity]. by rewrite Hout, Hsame.
  - destruct (downloadImage_nil_inv env img (world s) w' Hdl)
      as (resp & _ & _ & _ & _ & Hline).
    eexists. split; [done|]. split; [|reflexivity].
    by rewrite Hout, app_nil_r, Hline.
Qed.

Lemma one_line_per_image_witness :
  ∃ s',
    step site "https://x/1" (Worker 0)
      (exec site "https://x/1" (solo 8) (NewCrawler empty_world)) = Some s' ∧
    stdout (world s') =
    ["Downloaded: images/a.png" +:+ nl;
     "Error downloading https://x/broken.png: no such host" +:+ nl].
Proof.
  destruct (one_line_per_image site "https://x/1"
              (exec site "https://x/1" (solo 8) (NewCrawler empty_world))
              0%nat (mkImageURL "https://x/1" 1) "https://x/broken.png" []
              ["https://gone/"%string; "https://x/2"%string])
    as (s' & line & Hstep & Hout & Hline).
  - vm_compute. reflexivity.
  - vm_compute. reflexivity.
  - exists s'. split; [exact Hstep|]. rewrite Hout.
    assert ((downloadImage site "https://x/broken.png"
               (world (exec site "https://x/1" (solo 8)
                         (NewCrawler empty_world)))).1
            = Some "no such host"%string) as E by (vm_compute; reflexivity).
    rewrite E in Hline. rewrite Hline. vm_compute. reflexivity.
Defined.

(** ** The steps, case by case *)

(** As [crack], keeping the equation of each case. *)
Ltac crack_eq H :=
  repeat
    (match type of H with
     | context [if ?b then _ else _] =>
         lazymatch b with
         | context [if _ then _ else _] => fail
         | _ => destruct b eqn:?
         end
     | context [match visitedLock ?s with Some _ => _ | None => _ end] =>
         destruct (visitedLock s) eqn:?
     | context [match urlChan ?s with [] => _ | _ :: _ => _ end] =>
         destruct (urlChan s) eqn:?
     | context [client_Get ?e ?u ?w] =>
         destruct (client_Get e u w) as [[?|?] ?] eqn:?
     | context [parseHTML ?e ?b ?u ?d] =>
         destruct (parseHTML e b u d) as [? ?] eqn:?
     | context [downloadImage ?e ?u ?w] =>
         destruct (downloadImage e u w) as [[?|] ?] eqn:?
     end; cbn in H).

(** Every way in which [step env seed t s = Some s'] can hold, with [s']
    replaced by the state that the step builds. *)
Ltac step_cases Hstep Hi :=
  unfold step in Hstep;
  destruct (panicked _) eqn:? in Hstep; [discriminate Hstep|];
  match type of Hstep with
  | match ?t with Main => _ | Worker _ => _ end = _ => destruct t as [|?]
  end;
  [ unfold main_step in Hstep;
    destruct (main_pc _) as [?|?|?| | | |] eqn:? in Hstep
  | destruct (workers _ !! _) as [[|?|?|?|?|?|?|?|? [|? ?] ?|? [|? ?]| |]|]
      eqn:Hi in Hstep;
    unfold worker_step in Hstep ];
  unfold chan_send, wg_Add in Hstep; cbn in Hstep; crack_eq Hstep;
  try discriminate Hstep; try congruence; injection Hstep as <-;
  repeat match goal with
         | H : (_ <=? _)%nat = true |- _ => apply Nat.leb_le in H
         | H : (_ <=? _)%nat = false |- _ => apply Nat.leb_gt in H
         | H : (_ <? _)%nat = true |- _ => apply Nat.ltb_lt in H
         | H : (_ <? _)%nat = false |- _ => apply Nat.ltb_ge in H
         end.

Lemma sent_items_app tr l : sent_items (tr ++ l) = sent_items tr ++ sent_items l.
Proof. unfold sent_items. by rewrite flat_map_app. Qed.

Lemma recv_items_app tr l : recv_items (tr ++ l) = recv_items tr ++ recv_items l.
Proof. unfold recv_items. by rewrite flat_map_app. Qed.

Lemma chan_init w : chan_inv (NewCrawler w).
Proof. split; simpl; [done | unfold urlChanCap; lia]. Qed.

Lemma chan_step env seed t s s' :
  chan_inv s → step env seed t s = Some s' → chan_inv s'.
Proof.
  intros [Hf Hc] Hstep. step_cases Hstep Hi.
  all: split; simpl;
    rewrite ?sent_items_app, ?recv_items_app, ?length_app; simpl;
    rewrite ?app_nil_r.
  all: try match goal with
           | H : urlChan _ = _ |- _ => rewrite H in *
           end.
  all: try assumption.
  all: try (rewrite Hf, <- ?app_assoc; reflexivity).
  all: unfold urlChanCap in *; simpl in *; lia.
Qed.

(** ** Each page at most once *)

Lemma fetches_snoc u tr e :
  fetches u (tr ++ [e]) = (fetches u tr + Nat.b2n (fetched u e))%nat.
Proof.
  unfold fetches. rewrite List.filter_app, length_app. simpl.
  by destruct (fetched u e).
Qed.

Lemma count_insert {A} (f : A → bool) (l : list A) i x y :
  l !! i = Some x →
  (length (List.filter f (<[i:=y]> l)) + Nat.b2n (f x))%nat
  = (length (List.filter f l) + Nat.b2n (f y))%nat.
Proof.
  revert i. induction l as [|a l IH]; intros [|i]; simpl; try done.
  - intros [= ->]. destruct (f x), (f y); simpl; lia.
  - intros Hi. specialize (IH i Hi). destruct (f a); simpl; lia.
Qed.

Lemma count_snoc_false {A} (f : A → bool) (l : list A) x :
  f x = false → length (List.filter f (l ++ [x])) = length (List.filter f l).
Proof.
  intros Hx. rewrite List.filter_app, length_app. simpl. rewrite Hx. simpl. lia.
Qed.

Lemma fetch_init w : fetch_inv (NewCrawler w).
Proof. intros u. reflexivity. Qed.

Lemma fetch_step env seed t s s' :
  fetch_inv s → step env seed t s = Some s' → fetch_inv s'.
Proof.
  intros HF Hstep u. specialize (HF u). unfold pending in *.
  step_cases Hstep Hi; simpl;
    rewrite ?fetches_snoc, ?claims_won_snoc; simpl;
    rewrite ?Nat.add_0_r.
  all: try assumption.
  all: try (rewrite count_snoc_false by reflexivity; assumption).
  all: match goal with
       | |- context [<[?i := ?pc']> (workers ?s)] =>
           pose proof (count_insert (is_pending u) (workers s) i _ pc' Hi) as Hn;
           simpl in Hn
       end.
  all: repeat match goal with
              | H : context [String.eqb ?a ?b] |- _ =>
                  destruct (String.eqb a b); simpl in *
              | |- context [String.eqb ?a ?b] =>
                  destruct (String.eqb a b); simpl in *
              end.
  all: lia.
Qed.

(** ** Fetched only once recorded *)

Lemma recorded_init w : recorded_inv (NewCrawler w).
Proof. split; simpl; constructor. Qed.

Lemma recorded_pc_mono s s' pc :
  (∀ u, visited_get s u = true → visited_get s' u = true) →
  recorded_pc s pc → recorded_pc s' pc.
Proof. intros Hm. destruct pc; simpl; auto. Qed.

Lemma recorded_ev_mono s s' e :
  (∀ u, visited_get s u = true → visited_get s' u = true) →
  recorded_ev s e → recorded_ev s' e.
Proof. intros Hm. destruct e; simpl; auto. Qed.

Lemma recorded_step env seed t s s' :
  recorded_inv s → step env seed t s = Some s' → recorded_inv s'.
Proof.
  intros [Hw He] Hstep.
  assert (∀ u, visited_get s u = true → visited_get s' u = true) as Hm.
  { intros u. by eapply step_visited_get. }
  assert (Forall (recorded_pc s') (workers s)) as Hw'.
  { eapply Forall_impl; [exact Hw|]. intros pc. by apply recorded_pc_mono. }
  assert (Forall (recorded_ev s') (trace s)) as He'.
  { eapply Forall_impl; [exact He|]. intros e. by apply recorded_ev_mono. }
  clear Hm.
  step_cases Hstep Hi.
  all: try (pose proof (Forall_lookup_1 _ _ _ _ Hw Hi) as Hpc; simpl in Hpc).
  all: split; simpl.
  all: try assumption.
  all: try (apply Forall_app; split; [assumption | by repeat constructor]).
  all: apply Forall_insert; [assumption | simpl; try done].
  all: unfold visited_get; simpl; by rewrite lookup_insert_eq.
Qed.

(** ** Reachable states, continued *)

Lemma reachable_inv2 env seed w sched :
  let s := exec env seed sched (NewCrawler w) in
  chan_inv s ∧ fetch_inv s ∧ recorded_inv s.
Proof.
  apply (exec_invariant env seed
           (λ s, chan_inv s ∧ fetch_inv s ∧ recorded_inv s)).
  - intros t s s' (H1 & H2 & H3) Hstep. split; [|split].
    + by eapply chan_step.
    + by eapply fetch_step.
    + by eapply recorded_step.
  - split; [|split]; [apply chan_init | apply fetch_init | apply recorded_init].
Qed.

Lemma fetches_In u it tr :
  In (EvFetchPage it) tr → URL it = u → (1 ≤ fetches u tr)%nat.
Proof.
  intros Hin <-. unfold fetches.
  assert (In (EvFetchPage it) (List.filter (fetched (URL it)) tr)) as H.
  { apply filter_In. split; [done|]. simpl. apply String.eqb_refl. }
  destruct (List.filter _ tr); [done | simpl; lia].
Qed.

Lemma claims_won_le env seed w sched u :
  (claims_won u (trace (exec env seed sched (NewCrawler w))) ≤ 1)%nat.
Proof.
  destruct (reachable_inv env seed w sched) as (_ & _ & HC).
  rewrite (inv_won _ HC). destruct (_ || _); simpl; lia.
Qed.

(** X7: in every reachable state the items sent on [urlChan], in the
    order of the sends, are the items received, in the order of the
    receptions, followed by the buffer of the channel: no item is lost,
    repeated or overtaken; and the buffer never holds more than its 100
    places. *)
Theorem channel_fifo_bounded env startURL w sched :
  let s := exec env startURL sched (NewCrawler w) in
  sent_items (trace s) = recv_items (trace s) ++ urlChan s ∧
  (length (urlChan s) ≤ urlChanCap)%nat.
Proof.
  intros s. destruct (reachable_inv2 env startURL w sched) as ([H1 H2] & _ & _).
  by split.
Qed.

(** X8: in every reachable state each URL has been fetched as a page at
    most once, whatever the number of items that carry it and of workers
    that run. *)
Theorem page_fetched_at_most_once env startURL w sched u :
  (fetches u (trace (exec env startURL sched (NewCrawler w))) ≤ 1)%nat.
Proof.
  destruct (reachable_inv2 env startURL w sched) as (_ & HF & _).
  pose proof (claims_won_le env startURL w sched u) as Hle.
  specialize (HF u). simpl in HF. lia.
Qed.

(** X9: in every reachable state a page that has been fetched has its URL
    in the visited set, has passed the visited check once and has been
    fetched once: the fetch comes after the set of line 128, and a
    failed fetch is not tried again. *)
Theorem fetched_page_recorded env startURL w sched it :
  let s := exec env startURL sched (NewCrawler w) in
  In (EvFetchPage it) (trace s) →
  visited_get s (URL it) = true ∧
  claims_won (URL it) (trace s) = 1%nat ∧
  fetches (URL it) (trace s) = 1%nat.
Proof.
  intros s Hin.
  destruct (reachable_inv2 env startURL w sched) as (_ & HF & [_ HR]).
  fold s in HF, HR.
  pose proof (claims_won_le env startURL w sched (URL it)) as Hle. fold s in Hle.
  pose proof (fetches_In (URL it) it (trace s) Hin eq_refl) as Hge.
  specialize (HF (URL it)).
  rewrite Forall_forall in HR. apply list_elem_of_In, HR in Hin.
  split; [exact Hin | lia].
Qed.

Lemma fetched_page_recorded_witness :
  fetches "https://gone/"
    (trace (exec site "https://x/1" (solo 70) (NewCrawler empty_world)))
  = 1%nat.
Proof.
  apply (fetched_page_recorded site "https://x/1" empty_world (solo 70)
           (mkImageURL "https://gone/" 2)).
  vm_compute. tauto.
Defined.

(** ** The start of the crawl *)

Lemma seed_init seed w : seed_inv seed w (NewCrawler w).
Proof. left. split; [done|]. repeat split; simpl; try done. Qed.

Lemma seed_step env seed w0 t s s' :
  control_inv s → seed_inv seed w0 s → step env seed t s = Some s' →
  seed_inv seed w0 s'.
Proof.
  intros HI [[Hm (Hc & Ht & Hv & Hl & Hw & Hws)]|[Hm [rest Ht]]] Hstep.
  - (* quiet: only [Start] can move *)
    pose proof (inv_open _ HI) as Hopen.
    pose proof (inv_main _ HI) as Hok. unfold main_ok in Hok.
    step_cases Hstep Hi.
    all: try (rewrite Forall_lookup in Hws; specialize (Hws _ _ Hi);
              discriminate Hws).
    all: try congruence.
    all: try (rewrite Heqm in Hok; destruct Hok).
    all: try (left; split; [simpl; congruence|];
              repeat split; simpl; try done;
              first [ assumption
                    | apply Forall_app; split;
                      [assumption | by repeat constructor] ]).
    right. split; [done|]. simpl. rewrite Ht. by exists [].
  - (* after the seed: the trace grows at its end *)
    pose proof (inv_main _ HI) as Hok. unfold main_ok in Hok.
    rewrite Hm in Hok. destruct Hok as [Hwg _]. unfold MaxWorkers in Hwg.
    step_cases Hstep Hi.
    all: try congruence.
    all: try (rewrite Hwg in *; discriminate).
    all: right; split; [done|]; simpl; rewrite Ht; eauto.
Qed.

Lemma reachable_seed env seed w sched :
  seed_inv seed w (exec env seed sched (NewCrawler w)).
Proof.
  assert (control_inv (exec env seed sched (NewCrawler w)) ∧
          seed_inv seed w (exec env seed sched (NewCrawler w))) as [_ H];
    [|exact H].
  apply (exec_invariant env seed (λ s, control_inv s ∧ seed_inv seed w s)).
  - intros t s s' [HI HS] Hstep. split;
      [by eapply control_step | by eapply seed_step].
  - split; [apply control_init | apply seed_init].
Qed.

(** X10: [Start] starts at most [MaxWorkers] workers and the counter of
    the wait group stays between 0 and [MaxWorkers]. Until the seed is
    sent nothing else happens: no item is in the channel, no event has
    occurred, the world is untouched and every worker started waits at
    the receive. Once the seed is sent there are exactly [MaxWorkers]
    workers, the counter is [MaxWorkers], and the first event of the
    crawl is the send of the seed at depth 1. *)
Theorem workers_wait_for_seed env startURL w sched :
  let s := exec env startURL sched (NewCrawler w) in
  (Z.of_nat (length (workers s)) ≤ MaxWorkers ∧ 0 ≤ wg s ≤ MaxWorkers) ∧
  (main_pc s ≠ SWait → quiet w s) ∧
  (main_pc s = SWait →
   Z.of_nat (length (workers s)) = MaxWorkers ∧ wg s = MaxWorkers ∧
   ∃ rest, trace s = EvSend (mkImageURL startURL 1) :: rest).
Proof.
  intros s.
  destruct (reachable_inv env startURL w sched) as (HI & _ & _).
  pose proof (reachable_seed env startURL w sched) as HS.
  fold s in HI, HS.
  pose proof (inv_main _ HI) as Hok. unfold main_ok in Hok.
  split; [|split].
  - destruct (main_pc s); unfold MaxWorkers in *; lia.
  - intros Hm. destruct HS as [[_ Hq]|[Hm' _]]; [done | by destruct Hm].
  - intros Hm. rewrite Hm in Hok. destruct Hok as [Hwg Hlen].
    destruct HS as [[Hm' _]|[_ Hrest]]; [by destruct Hm' | done].
Qed.

Lemma workers_wait_for_seed_witness :
  quiet world_with_image
    (exec site "https://x/1"
       (Worker 0 :: Main :: Main :: Main :: Worker 0 :: Main :: [Worker 1])
       (NewCrawler world_with_image)) ∧
  ∃ rest,
    trace (exec site "https://x/1" (solo 20) (NewCrawler empty_world))
    = EvSend (mkImageURL "https://x/1" 1) :: rest.
Proof.
  split.
  - apply (proj1 (proj2 (workers_wait_for_seed site "https://x/1"
                           world_with_image _))).
    vm_compute. discriminate.
  - apply (proj2 (proj2 (workers_wait_for_seed site "https://x/1"
                           empty_world (solo 20)))).
    vm_compute. reflexivity.
Defined.

(** ** Depths of the items sent *)

Lemma sent_items_depth tr :
  Forall event_ok tr →
  Forall (λ it, 1 ≤ Depth it ≤ MaxDepth + 1) (sent_items tr).
Proof.
  induction 1 as [|e tr He _ IH]; [constructor|].
  unfold sent_items. simpl. fold (sent_items tr).
  destruct e; simpl; try done. by constructor.
Qed.

(** X11: every item that has been sent on the channel, and every item in
    its buffer, has a depth between 1 and [MaxDepth + 1]; and where a
    worker is about to send the links of an item, the 64-bit addition
    [imgURL.Depth + 1] of line 148 does not wrap around. *)
Theorem depth_of_items_bounded env startURL w sched :
  let s := exec env startURL sched (NewCrawler w) in
  Forall (λ it, 1 ≤ Depth it ≤ MaxDepth + 1) (sent_items (trace s)) ∧
  Forall (λ it, 1 ≤ Depth it ≤ MaxDepth + 1) (urlChan s) ∧
  (∀ i it links, workers s !! i = Some (WSend it links) →
                 int_add (Depth it) 1 = Depth it + 1).
Proof.
  intros s. destruct (reachable_inv env startURL w sched) as (_ & HD & _).
  fold s in HD. destruct HD as [Hc Hw He].
  split; [by apply sent_items_depth|]. split; [done|].
  intros i it links Hi.
  pose proof (Forall_lookup_1 _ _ _ _ Hw Hi) as Hit. simpl in Hit.
  unfold MaxDepth in Hit. apply int_add_small. lia.
Qed.

Lemma depth_of_items_bounded_witness :
  int_add (Depth (mkImageURL "https://x/3" 3)) 1 = 4.
Proof.
  apply (proj2 (proj2 (depth_of_items_bounded site "https://x/1" empty_world
                         (solo 47)))
           0%nat (mkImageURL "https://x/3" 3) ["https://x/4"%string]).
  vm_compute. reflexivity.
Defined.

(** ** The lock *)

Lemma exec_step env seed t l s s' :
  step env seed t s = Some s' → exec env seed (t :: l) s = exec env seed l s'.
Proof. intros H. by rewrite exec_cons, H. Qed.

(** X12: in every reachable state the worker that holds [visitedLock] is
    between lines 123 and 129; a worker that receives, fetches,
    downloads or sends does not hold it; the holder can always take a
    step, and after at most three steps of its own the lock is free. *)
Theorem lock_held_briefly env startURL w sched i :
  let s := exec env startURL sched (NewCrawler w) in
  visitedLock s = Some i →
  (∃ pc, workers s !! i = Some pc ∧ in_cs pc = true) ∧
  (∀ j pc, workers s !! j = Some pc → in_cs pc = false → j ≠ i) ∧
  is_Some (step env startURL (Worker i) s) ∧
  ∃ k, (k ≤ 3)%nat ∧
       visitedLock (exec env startURL (replicate k (Worker i)) s) = None.
Proof.
  intros s Hl.
  destruct (reachable_inv env startURL w sched) as (HI & _ & _). fold s in HI.
  pose proof (inv_run _ HI) as Hp.
  destruct (inv_holder _ HI _ Hl) as [pc Hi].
  assert (in_cs pc = true) as Hcs by by apply (inv_lock _ HI _ _ Hi).
  split; [by exists pc|]. split.
  { intros j pcj Hj Hncs ->. rewrite Hi in Hj. injection Hj as ->.
    congruence. }
  assert (∀ s0 pc0, panicked s0 = false → visitedLock s0 = Some i →
            workers s0 !! i = Some pc0 →
            (∃ it, pc0 = WUnlock it ∨ pc0 = WUnlockSkip it) →
            ∃ s1, step env startURL (Worker i) s0 = Some s1 ∧
                  visitedLock s1 = None) as Hrelease.
  { intros s0 pc0 Hp0 Hl0 Hi0 [it [->| ->]];
      rewrite (step_worker _ _ _ _ _ Hp0 Hi0); unfold worker_step;
      rewrite Hl0; eexists; (split; [reflexivity|done]). }
  destruct pc as [|it|it|it|it|it|it|it|it images links|it links| |];
    try discriminate Hcs.
  - (* at the check *)
    assert (step env startURL (Worker i) s =
            Some (if visited_get s (URL it)
                  then goto i (WUnlockSkip it) (emit (EvClaim it false) s)
                  else goto i (WSet it) (emit (EvClaim it true) s))) as Hstep.
    { rewrite (step_worker _ _ _ _ _ Hp Hi). unfold worker_step.
      by destruct (visited_get s (URL it)). }
    split; [rewrite Hstep; eauto|].
    destruct (visited_get s (URL it)).
    + destruct (Hrelease (goto i (WUnlockSkip it) (emit (EvClaim it false) s))
                  (WUnlockSkip it)) as (s2 & Hs2 & Hl2); try done.
      { rewrite lookup_goto by (simpl; eauto). by case_decide. }
      { eauto. }
      exists 2%nat. split; [lia|].
      change (replicate 2 (Worker i)) with [Worker i; Worker i].
      by rewrite (exec_step _ _ _ _ _ _ Hstep), (exec_step _ _ _ _ _ _ Hs2).
    + set (s1 := goto i (WSet it) (emit (EvClaim it true) s)).
      assert (workers s1 !! i = Some (WSet it)) as Hi1.
      { unfold s1. rewrite lookup_goto by (simpl; eauto). by case_decide. }
      assert (step env startURL (Worker i) s1 =
              Some (goto i (WUnlock it)
                      (set_visited (<[URL it := true]> (visited s1)) s1)))
        as Hstep1.
      { by rewrite (step_worker env startURL i (WSet it) s1 Hp Hi1). }
      destruct (Hrelease (goto i (WUnlock it)
                            (set_visited (<[URL it := true]> (visited s1)) s1))
                  (WUnlock it)) as (s3 & Hs3 & Hl3); try done.
      { rewrite lookup_goto by (simpl; eauto). by case_decide. }
      { eauto. }
      exists 3%nat. split; [lia|].
      change (replicate 3 (Worker i)) with [Worker i; Worker i; Worker i].
      by rewrite (exec_step _ _ _ _ _ _ Hstep), (exec_step _ _ _ _ _ _ Hstep1),
           (exec_step _ _ _ _ _ _ Hs3).
  - (* at the unlock of an item already visited *)
    destruct (Hrelease s (WUnlockSkip it)) as (s1 & Hs1 & Hl1); eauto.
    split; [rewrite Hs1; eauto|].
    exists 1%nat. split; [lia|].
    change (replicate 1 (Worker i)) with [Worker i].
    by rewrite (exec_step _ _ _ _ _ _ Hs1).
  - (* at the set *)
    assert (step env startURL (Worker i) s =
            Some (goto i (WUnlock it)
                    (set_visited (<[URL it := true]> (visited s)) s)))
      as Hstep.
    { by rewrite (step_worker _ _ _ _ _ Hp Hi). }
    split; [rewrite Hstep; eauto|].
    destruct (Hrelease (goto i (WUnlock it)
                          (set_visited (<[URL it := true]> (visited s)) s))
                (WUnlock it)) as (s2 & Hs2 & Hl2); try done.
    { rewrite lookup_goto by (simpl; eauto). by case_decide. }
    { eauto. }
    exists 2%nat. split; [lia|].
    change (replicate 2 (Worker i)) with [Worker i; Worker i].
    by rewrite (exec_step _ _ _ _ _ _ Hstep), (exec_step _ _ _ _ _ _ Hs2).
  - (* at the unlock *)
    destruct (Hrelease s (WUnlock it)) as (s1 & Hs1 & Hl1); eauto.
    split; [rewrite Hs1; eauto|].
    exists 1%nat. split; [lia|].
    change (replicate 1 (Worker i)) with [Worker i].
    by rewrite (exec_step _ _ _ _ _ _ Hs1).
Qed.

Lemma lock_held_briefly_witness :
  ∃ k, (k ≤ 3)%nat ∧
    visitedLock
      (exec site "https://x/1" (replicate k (Worker 0))
         (exec site "https://x/1" (solo 3) (NewCrawler empty_world)))
    = None.
Proof.
  apply (lock_held_briefly site "https://x/1" empty_world (solo 3) 0%nat).
  vm_compute. reflexivity.
Defined.

(** ** The files of the crawl *)

Lemma page_images_accepted toks :
  Forall (λ u, isImageURL u = true) (page_images toks).
Proof.
  apply Forall_forall. intros v Hv%list_elem_of_In.
  unfold page_images in Hv. apply in_flat_map in Hv as (token & _ & Hv).
  destruct (is_open_tag "img" token); [|done].
  apply in_flat_map in Hv as (v' & _ & Hv).
  destruct (isImageURL v') eqn:Hacc; [|done]. by destruct Hv as [<-|[]].
Qed.

Lemma parseHTML_images_accepted env body baseURL depth :
  Forall (λ u, isImageURL u = true) (parseHTML env body baseURL depth).2.
Proof.
  unfold parseHTML. rewrite parse_loop_spec. simpl. apply page_images_accepted.
Qed.

Lemma files_init w : files_inv w (NewCrawler w).
Proof.
  split; simpl; [by left | done | | constructor].
  intros x Hx. apply elem_of_union. by right.
Qed.

(** A download of an accepted URL keeps the invariant of the files. *)
Lemma files_download env img w0 w w' r :
  isImageURL img = true →
  downloadImage env img w = (r, w') →
  (∀ p, files w !! p = files w0 !! p ∨ inside_images p) →
  dirs w0 ⊆ dirs w → dirs w ⊆ {[DownloadDir]} ∪ dirs w0 →
  (∀ p, files w' !! p = files w0 !! p ∨ inside_images p) ∧
  dirs w0 ⊆ dirs w' ∧ dirs w' ⊆ {[DownloadDir]} ∪ dirs w0.
Proof.
  intros Himg Hdl Hf Hlo Hhi.
  destruct (downloadImage_touches env img w) as (Hfr & Hd1 & Hd2 & _ & _).
  rewrite Hdl in Hfr, Hd1, Hd2. simpl in Hfr, Hd1, Hd2.
  destruct (image_name_shape img Himg) as (_ & Hsep & _ & Hacc & Hpath).
  split; [|split; [by etrans|]].
  2: { intros x Hx. apply Hd2 in Hx. apply elem_of_union in Hx as [Hx|Hx];
       [apply elem_of_union; by left | by apply Hhi]. }
  intros p.
  destruct (decide (p = Filepath.Join [DownloadDir; getFilenameFromURL img]))
    as [->|Hne].
  - right. exists (getFilenameFromURL img). by rewrite Hpath.
  - rewrite (Hfr p Hne). apply Hf.
Qed.

Lemma files_step env seed w0 t s s' :
  files_inv w0 s → step env seed t s = Some s' → files_inv w0 s'.
Proof.
  intros [Hf Hlo Hhi Him] Hstep.
  step_cases Hstep Hi.
  all: try (pose proof (Forall_lookup_1 _ _ _ _ Him Hi) as Hpc; simpl in Hpc).
  all: repeat match goal with
         | H : client_Get _ _ _ = _ |- _ =>
             rewrite client_Get_eq in H; injection H as ? <-
         | H : parseHTML ?e ?b ?u ?d = (_, ?images) |- _ =>
             let Hacc := fresh "Hacc" in
             pose proof (parseHTML_images_accepted e b u d) as Hacc;
             rewrite H in Hacc; simpl in Hacc; clear H
         | H : downloadImage _ _ _ = _ |- _ =>
             let Hd := fresh "Hd" in
             apply Forall_cons in Hpc as [? ?];
             pose proof (files_download _ _ w0 _ _ _ ltac:(eassumption) H
                           Hf Hlo Hhi) as (? & ? & ?);
             clear H
         end.
  all: split; simpl; try assumption.
  all: try (apply Forall_insert; [assumption | simpl; try done]).
  all: try (apply Forall_app; split; [assumption | by repeat constructor]).
Qed.

Lemma reachable_files env seed w sched :
  files_inv w (exec env seed sched (NewCrawler w)).
Proof.
  apply (exec_invariant env seed (files_inv w)).
  - intros t s s' H Hstep. by eapply files_step.
  - apply files_init.
Qed.

(** X13: whatever the pages contain, the crawl changes no file but files
    directly inside [images] whose names end with an image suffix and
    have no separator; it removes no directory and creates none but
    [images]. *)
Theorem crawl_writes_inside_images env startURL w sched :
  let s := exec env startURL sched (NewCrawler w) in
  (∀ p, files (world s) !! p = files w !! p ∨
        ∃ name, p = "images/" +:+ name ∧ has_sep name = false ∧
                isImageURL name = true) ∧
  dirs w ⊆ dirs (world s) ∧ dirs (world s) ⊆ {[DownloadDir]} ∪ dirs w.
Proof.
  intros s. destruct (reachable_files env startURL w sched) as [H1 H2 H3 _].
  by repeat split.
Qed.

(** ** The lines printed *)

Lemma string_prefix_app p x : String.prefix p (p +:+ x) = true.
Proof.
  induction p as [|c p IH]; [by destruct x|].
  rewrite string_app_cons. simpl.
  destruct (ascii_dec c c); [exact IH | done].
Qed.

Lemma stdout_init w : stdout_inv w (NewCrawler w).
Proof. exists []. split; [by rewrite app_nil_r | done]. Qed.

Lemma stdout_snoc w0 out line :
  (∃ l, out = stdout w0 ++ l ∧ forallb is_status l = true) →
  is_status line = true →
  ∃ l, out ++ [line] = stdout w0 ++ l ∧ forallb is_status l = true.
Proof.
  intros (l & -> & Hl) Hline. exists (l ++ [line]).
  split; [by rewrite app_assoc|].
  rewrite forallb_app, Hl. simpl. by rewrite Hline.
Qed.

Lemma stdout_download env img w0 w w' r :
  downloadImage env img w = (r, w') →
  (∃ l, stdout w = stdout w0 ++ l ∧ forallb is_status l = true) →
  ∃ l, stdout w' = stdout w0 ++ l ∧ forallb is_status l = true.
Proof.
  intros Hdl H. destruct r as [e|].
  - destruct (downloadImage_error_inv env img w w' e Hdl) as [-> _]. exact H.
  - destruct (downloadImage_nil_inv env img w w' Hdl)
      as (_ & _ & _ & _ & _ & ->).
    apply stdout_snoc; [exact H|].
    unfold is_status. by rewrite string_prefix_app.
Qed.

Lemma stdout_step env seed w0 t s s' :
  stdout_inv w0 s → step env seed t s = Some s' → stdout_inv w0 s'.
Proof.
  unfold stdout_inv. intros H Hstep.
  step_cases Hstep Hi.
  all: repeat match goal with
         | H : client_Get _ _ _ = _ |- _ =>
             rewrite client_Get_eq in H; injection H as ? <-
         | Hd : downloadImage _ _ _ = _ |- _ =>
             apply (stdout_download _ _ w0 _ _ _ Hd) in H; clear Hd
         end.
  all: simpl; try assumption.
  all: apply stdout_snoc; [assumption|].
  - unfold is_status. change ("Error fetching " +:+ ?x) with
      ("Error fetching " +:+ x). rewrite string_prefix_app.
    by rewrite orb_true_r.
  - unfold is_status. rewrite string_prefix_app. by rewrite !orb_true_r.
Qed.

Lemma reachable_stdout env seed w sched :
  stdout_inv w (exec env seed sched (NewCrawler w)).
Proof.
  apply (exec_invariant env seed (stdout_inv w)).
  - intros t s s' H Hstep. by eapply stdout_step.
  - apply stdout_init.
Qed.

(** X14: whatever the site and the interleaving, what [main] has printed
    is what was printed before, then the line [Starting crawl from
    https://example.com], then lines about single images and pages
    ([Downloaded: ...], [Error fetching ...], [Error downloading ...])
    and nothing else: the line [Crawling completed] is never printed. *)
Theorem main_prints_no_completion env sched w :
  ∃ l,
    main_stdout env sched w =
    stdout w ++ ("Starting crawl from https://example.com" +:+ nl) :: l ∧
    forallb is_status l = true ∧
    ¬ In ("Crawling completed" +:+ nl) l.
Proof.
  unfold main_stdout, main_boot.
  set (w1 := (Printf _ w).2).
  destruct (reachable_inv env main_startURL w1 sched) as (HI & _ & _).
  destruct (reachable_stdout env main_startURL w1 sched) as (l & Hout & Hl).
  pose proof (inv_main _ HI) as Hok. unfold main_ok in Hok.
  exists l. split; [|split].
  - destruct (main_pc _); try done; rewrite Hout; unfold w1; simpl;
      by rewrite <- app_assoc.
  - exact Hl.
  - intros Hin. rewrite forallb_forall in Hl. apply Hl in Hin.
    discriminate Hin.
Qed.

(** ** The edges of [isImageURL] *)

Lemma last_char_app a b :
  b ≠ EmptyString → last_char (a +:+ b) = last_char b.
Proof.
  intros Hb. induction a as [|c a IH]; [done|].
  rewrite string_app_cons. simpl. rewrite IH.
  destruct (a +:+ b) eqn:E; [|done]. by destruct a, b.
Qed.

Lemma suffix_window (p s q suf : string) :
  p +:+ s = q +:+ suf → (String.length suf ≤ String.length s)%nat →
  has_suffix s suf.
Proof.
  revert q. induction p as [|c p IH]; intros q E Hlen.
  - by exists q.
  - destruct q as [|c' q].
    + change (String c p +:+ s = suf) in E. subst suf.
      rewrite string_app_cons in Hlen. simpl in Hlen.
      rewrite string_length_app in Hlen. lia.
    + rewrite !string_app_cons in E. injection E as _ E. by eapply IH.
Qed.

(** X15: [isImageURL] looks at the end of the string only. A string that it
    accepts is accepted behind any prefix; for a string of five or more
    characters the answer does not change when a prefix is put before it
    (the last five characters decide); every string of fewer than four
    characters is rejected; an accepted string ends with [g], [f] or
    [p]; the suffixes in capitals are rejected. *)
Theorem isImageURL_edges :
  (∀ p s, isImageURL s = true → isImageURL (p +:+ s) = true) ∧
  (∀ p s, (5 ≤ String.length s)%nat →
          isImageURL (p +:+ s) = isImageURL s) ∧
  (∀ s, (String.length s < 4)%nat → isImageURL s = false) ∧
  (∀ s c, isImageURL (s +:+ String c EmptyString) = true →
          c = "g"%char ∨ c = "f"%char ∨ c = "p"%char) ∧
  (∀ s suf, In suf [".JPG"; ".JPEG"; ".PNG"; ".GIF"; ".BMP"]%string →
            isImageURL (s +:+ suf) = false).
Proof.
  assert (∀ p s, isImageURL s = true → isImageURL (p +:+ s) = true) as Hpre.
  { intros p s (suf & Hsuf & q & ->)%isImageURL_suffix.
    apply isImageURL_suffix. exists suf. split; [done|].
    exists (p +:+ q). by rewrite string_app_assoc. }
  assert (∀ s c, isImageURL (s +:+ String c EmptyString) = true →
                 c = "g"%char ∨ c = "f"%char ∨ c = "p"%char) as Hlast.
  { intros s c (suf & Hsuf & q & E)%isImageURL_suffix.
    assert (last_char suf = Some c) as Hl.
    { rewrite <- (last_char_app q suf), <- E, last_char_app; [done..|].
      intros ->. by destruct Hsuf as [|[|[|[|[|[]]]]]]. }
    unfold image_suffixes in Hsuf. simpl in Hsuf.
    destruct Hsuf as [<-|[<-|[<-|[<-|[<-|[]]]]]];
      injection Hl as <-; tauto. }
  split; [exact Hpre|]. split; [|split; [|split; [exact Hlast|]]].
  - intros p s Hlen. destruct (isImageURL s) eqn:Hs; [by apply Hpre|].
    destruct (isImageURL (p +:+ s)) eqn:Hps; [|done].
    apply isImageURL_suffix in Hps as (suf & Hsuf & q & E).
    assert (String.length suf ≤ 5)%nat as Hsuf5.
    { unfold image_suffixes in Hsuf. simpl in Hsuf.
      destruct Hsuf as [<-|[<-|[<-|[<-|[<-|[]]]]]]; simpl; lia. }
    assert (isImageURL s = true) as Hacc; [|congruence].
    apply isImageURL_suffix. exists suf. split; [done|].
    eapply suffix_window; [exact E | lia].
  - intros s Hlen. destruct (isImageURL s) eqn:E; [|done].
    apply isImageURL_suffix in E as (suf & Hsuf & q & ->).
    pose proof (image_suffix_length suf Hsuf).
    rewrite string_length_app in Hlen. lia.
  - intros s suf Hsuf.
    destruct (isImageURL (s +:+ suf)) eqn:E; [|done]. exfalso.
    simpl in Hsuf.
    destruct Hsuf as [<-|[<-|[<-|[<-|[<-|[]]]]]].
    + destruct (Hlast (s +:+ ".JP") "G"%char) as [H|[H|H]];
        [by rewrite string_app_assoc | discriminate H..].
    + destruct (Hlast (s +:+ ".JPE") "G"%char) as [H|[H|H]];
        [by rewrite string_app_assoc | discriminate H..].
    + destruct (Hlast (s +:+ ".PN") "G"%char) as [H|[H|H]];
        [by rewrite string_app_assoc | discriminate H..].
    + destruct (Hlast (s +:+ ".GI") "F"%char) as [H|[H|H]];
        [by rewrite string_app_assoc | discriminate H..].
    + destruct (Hlast (s +:+ ".BM") "P"%char) as [H|[H|H]];
        [by rewrite string_app_assoc | discriminate H..].
Qed.

Lemma isImageURL_edges_witness :
  isImageURL "https://cdn.example.com/a/b.jpeg" = true ∧
  isImageURL "https://x/a.png?w=10" = false ∧
  isImageURL "a.b" = false ∧
  isImageURL "https://x/a.PNG" = false.
Proof.
  split; [|split; [|split]].
  - apply (proj1 isImageURL_edges "https://cdn.example.com/a/" "b.jpeg").
    reflexivity.
  - change (isImageURL ("https://x/a.png" +:+ "?w=10") = false).
    rewrite (proj1 (proj2 isImageURL_edges) "https://x/a.png" "?w=10");
      [reflexivity | simpl; lia].
  - apply (proj1 (proj2 (proj2 isImageURL_edges))). simpl. lia.
  - apply (proj2 (proj2 (proj2 (proj2 isImageURL_edges))) "https://x/a"
             ".PNG"%string).
    simpl. tauto.
Defined.

(** A query or a fragment that itself ends with an image suffix leaves the
    URL accepted. *)
Example isImageURL_query_accepted :
  isImageURL "https://x/a.png?next=b.gif" = true ∧
  isImageURL "https://x/page#frag.png" = true.
Proof. split; reflexivity. Qed.
